(** * BreezeBlocks: the finalized query and the database facade

    A shallow embedding of [breezeblocks/database.py] and
    [breezeblocks/sql/query.py].  Python objects with instance attributes
    are attribute dictionaries ([gmap string _]) or records, exceptions are
    an inductive type, and code that talks to the DBAPI driver or to the
    connection pool runs in a state-and-exception monad over a [world]
    holding the pool objects, the query objects and the log of driver
    calls. *)

From Stdlib Require Import ZArith String Ascii List.
From stdpp Require Import base option list gmap strings pretty.


(** ** Python values, exceptions, outcomes *)

(** The values that travel through parameters and result rows. *)
Inductive pyval :=
  | PyNone
  | PyInt (z : Z)
  | PyStr (s : string).

Global Instance pyval_eq_dec : EqDecision pyval.
Proof. solve_decision. Defined.

(** [str(x)] on the values above; on [int] it is the decimal rendering. *)
Definition str (v : pyval) : string :=
  match v with
  | PyNone => "None"
  | PyInt z => pretty z
  | PyStr s => s
  end.

Inductive exc :=
  | MissingModuleError
  | UnsupportedModuleError
  | QueryError (msg : string)
  | AttributeError (attr : string)
  | TypeError (msg : string)
  | ValueError (msg : string)
  | KeyError (key : string)
  | IndexError (msg : string)
  | SyntaxError (msg : string)
  | DriverError (code : nat).

Global Instance exc_eq_dec : EqDecision exc.
Proof. solve_decision. Defined.

(** What a call does: return, raise, or wait forever on a saturated pool. *)
Inductive outcome (A : Type) :=
  | Ok (a : A)
  | Raise (e : exc)
  | Blocked.
Arguments Ok {A} a.
Arguments Raise {A} e.
Arguments Blocked {A}.

(** Pure fallible code (no driver, no pool) returns a [result]. *)
Definition result (A : Type) := (exc + A)%type.

Global Instance result_ret : MRet result := λ A a, inr a.
Global Instance result_bind : MBind result := λ A B f r,
  match r with inl e => inl e | inr a => f a end.

(** A result row, as the driver returns it. *)
Definition row := list pyval.

(** ** [str.format] with positional fields *)

Inductive piece :=
  | Lit (s : string)
  | Field (index : nat).

(** A template is the format string cut at its replacement fields: [Field i]
    stands for the field written with the digit [i] between braces, and is
    replaced by [str] of the positional argument [i]. *)
Fixpoint format (template : list piece) (args : list pyval) : result string :=
  match template with
  | [] => inr ""
  | Lit s :: rest => tail ← format rest args; inr (s +:+ tail)
  | Field i :: rest =>
      match args !! i with
      | Some v => tail ← format rest args; inr (str v +:+ tail)
      | None => inl (IndexError "Replacement index out of range")
      end
  end.

(** The line feed. *)
Definition nl : string := String (ascii_of_nat 10) "".

(** ** [collections.namedtuple], as far as [query.py] uses it *)

Module collections.

Definition is_letter (c : ascii) : bool :=
  let n := nat_of_ascii c in
  (((65 <=? n) && (n <=? 90)) || ((97 <=? n) && (n <=? 122)))%nat.

Definition is_digit (c : ascii) : bool :=
  let n := nat_of_ascii c in ((48 <=? n) && (n <=? 57))%nat.

Definition is_id_start (c : ascii) : bool :=
  is_letter c || Ascii.eqb c "_".

Definition is_id_continue (c : ascii) : bool :=
  is_id_start c || is_digit c.

Fixpoint all_chars (f : ascii → bool) (s : string) : bool :=
  match s with
  | EmptyString => true
  | String c s' => f c && all_chars f s'
  end.

(** What [str.isidentifier] is on ASCII text: a letter or underscore, then
    letters, digits and underscores. *)
Definition isidentifier_ascii (s : string) : bool :=
  match s with
  | EmptyString => false
  | String c s' => is_id_start c && all_chars is_id_continue s'
  end.

(** Names are Python strings in UTF-8; a name is ASCII when all its bytes
    are below 128. *)
Definition is_ascii_char (c : ascii) : bool := (nat_of_ascii c <? 128)%nat.

Definition is_ascii (s : string) : bool := all_chars is_ascii_char s.

Definition kwlist : list string :=
  [ "False"; "None"; "True"; "and"; "as"; "assert"; "async"; "await";
    "break"; "class"; "continue"; "def"; "del"; "elif"; "else"; "except";
    "finally"; "for"; "from"; "global"; "if"; "import"; "in"; "is";
    "lambda"; "nonlocal"; "not"; "or"; "pass"; "raise"; "return"; "try";
    "while"; "with"; "yield" ].

Definition iskeyword (s : string) : bool := bool_decide (s ∈ kwlist).

Definition startswith_underscore (s : string) : bool :=
  match s with
  | String c _ => Ascii.eqb c "_"
  | EmptyString => false
  end.

(** The positional names [_0], [_1], ... *)
Definition positional (index : nat) : string := "_" +:+ pretty index.

(** What is left to the interpreter.  [str.isidentifier] reads the Unicode
    tables, and [namedtuple] compiles the [__new__] of the class from the
    field names as parameter names, which the parser normalises and may
    refuse ([SyntaxError], for names that are distinct but equal once
    normalised).  Both are taken as given, with what they are on ASCII
    names: the ASCII rule above, and a compilation that succeeds for
    distinct ASCII identifiers that are no keywords and whose only leading
    underscores are those of positional names.  [compiles] is the exception
    of the compilation, if any. *)
Class Interpreter := {
  isidentifier : string → bool;
  compiles : list string → result unit;
  isidentifier_on_ascii (s : string) :
    is_ascii s = true → isidentifier s = isidentifier_ascii s;
  compiles_on_ascii (fields : list string) :
    Forall (λ f, is_ascii f = true ∧ isidentifier_ascii f = true
                 ∧ iskeyword f = false
                 ∧ (startswith_underscore f = true → ∃ i, f = positional i))
           fields →
    NoDup fields → compiles fields = inr tt
}.

(** The interpreter restricted to ASCII: no byte beyond ASCII is an
    identifier character, and every class body compiles.  It is what the
    interpreter is on ASCII names. *)
Definition ascii_only : Interpreter :=
  {| isidentifier := isidentifier_ascii;
     compiles := λ _, inr tt;
     isidentifier_on_ascii := λ _ _, eq_refl;
     compiles_on_ascii := λ _ _ _, eq_refl |}.

Section namedtuple.
Context {I : Interpreter}.

(** The renaming pass of [namedtuple(..., rename=True)]: walking the names
    with their index, a name that is no identifier, is a keyword, starts
    with an underscore or was seen before is replaced by [_index]; the
    original name joins [seen] either way. *)
Fixpoint rename_fields (index : nat) (seen : gset string) (names : list string)
    : list string :=
  match names with
  | [] => []
  | name :: rest =>
      (if negb (isidentifier name) || iskeyword name
          || startswith_underscore name || bool_decide (name ∈ seen)
       then positional index else name)
      :: rename_fields (S index) ({[name]} ∪ seen) rest
  end.

(** The first validation loop, over [[typename] + field_names]. *)
Fixpoint check_identifiers (names : list string) : result unit :=
  match names with
  | [] => inr tt
  | name :: rest =>
      if negb (isidentifier name) then
        inl (ValueError "Type names and field names must be valid identifiers")
      else if iskeyword name then
        inl (ValueError "Type names and field names cannot be a keyword")
      else check_identifiers rest
  end.

(** The second validation loop, over [field_names]. *)
Fixpoint check_fields (rename : bool) (seen : gset string) (names : list string)
    : result unit :=
  match names with
  | [] => inr tt
  | name :: rest =>
      if startswith_underscore name && negb rename then
        inl (ValueError "Field names cannot start with an underscore")
      else if bool_decide (name ∈ seen) then
        inl (ValueError "Encountered duplicate field name")
      else check_fields rename ({[name]} ∪ seen) rest
  end.

(** A named tuple class: its name and its fields, in order. *)
Record namedtuple_type := {
  nt_typename : string;
  nt_fields : list string
}.

(** An instance: the class and the tuple of values. *)
Record namedtuple_value := {
  nv_type : namedtuple_type;
  nv_values : list pyval
}.

(** [namedtuple(typename, field_names, rename=rename)] for a list of
    names: the renaming pass, the two validation loops, and the compilation
    of the class body. *)
Definition namedtuple (typename : string) (field_names : list string)
    (rename : bool) : result namedtuple_type :=
  let field_names :=
    if rename then rename_fields 0 ∅ field_names else field_names in
  match check_identifiers (typename :: field_names) with
  | inl e => inl e
  | inr _ =>
      match check_fields rename ∅ field_names with
      | inl e => inl e
      | inr _ =>
          match compiles field_names with
          | inl e => inl e
          | inr _ => inr {| nt_typename := typename; nt_fields := field_names |}
          end
      end
  end.

(** [cls._make(iterable)]: the tuple is built, then its length is checked
    against the number of fields. *)
Definition _make (cls : namedtuple_type) (r : row) : result namedtuple_value :=
  if decide (length r = length (nt_fields cls)) then
    inr {| nv_type := cls; nv_values := r |}
  else inl (TypeError "Expected a different number of arguments").

(** [getattr(value, name)] on an instance: the value at the position of the
    field [name]. *)
Fixpoint field_lookup (name : string) (fields : list string) (values : list pyval)
    : option pyval :=
  match fields, values with
  | f :: fields', v :: values' =>
      if decide (f = name) then Some v else field_lookup name fields' values'
  | _, _ => None
  end.

Definition getfield (v : namedtuple_value) (name : string) : option pyval :=
  field_lookup name (nt_fields (nv_type v)) (nv_values v).

(** A name the renaming pass keeps where it was not seen before: an
    identifier, no keyword, no leading underscore. *)
Definition keeps_name (name : string) : bool :=
  isidentifier name && negb (iskeyword name) && negb (startswith_underscore name).

End namedtuple.

End collections.


(** ** The driver *)

Definition kwargs := gmap string pyval.

(** Connections are named by the serial number of the [connect] call that
    opened them. *)
Definition conn := nat.

Inductive event :=
  | EvConnect (args : list pyval) (kw : kwargs)
  | EvCursor (c : conn)
  | EvExecute (c : conn) (statement : string) (params : list pyval)
  | EvFetchall (c : conn)
  | EvCursorClose (c : conn).

(** A DBAPI 2.0 module: its declared [paramstyle], and an oracle for each
    driver operation.  Every oracle sees the whole log of earlier driver
    calls (newest first), so a driver may fail once and succeed later. *)
Record dbapi := {
  paramstyle : string;
  connect_raises : list event → list pyval → kwargs → option exc;
  cursor_raises : list event → conn → option exc;
  execute_raises : list event → conn → string → list pyval → option exc;
  fetchall_returns : list event → conn → result (list row);
  close_raises : list event → conn → option exc
}.

(** ** Objects *)

(** Pool objects are named by a location. *)
Definition loc := nat.

(** What an instance attribute of a [Database] object can hold. *)
Inductive attr :=
  | ADsn (dsn : option string)
  | ADbapi (d : option dbapi)
  | AStr (s : string)
  | AList (l : list pyval)
  | ADict (kw : kwargs)
  | APool (l : loc).

(** A [Database] object is its instance dictionary. *)
Abbreviation database := (gmap string attr).

(** An expression object of the expression model ([column.py],
    [expressions.py], which are not embedded here) is seen through what its
    methods return. *)
Record base_expr := {
  be_name : string;
  be_select_field : string;
  be_ref_field : string
}.

(** Select expressions: the expressions of the expression model, and the
    class [_QueryColumn] of [query.py], which wraps a select expression of
    a query together with (the identity of) that query. *)
Inductive expr :=
  | Base (b : base_expr)
  | QueryColumn (column : expr) (query : N).

Fixpoint _get_name (e : expr) : string :=
  match e with
  | Base b => be_name b
  | QueryColumn column _ => _get_name column
  end.

Definition _get_ref_field (e : expr) : string :=
  match e with
  | Base b => be_ref_field b
  | QueryColumn _ _ => _get_name e
  end.

Definition _get_select_field (e : expr) : string :=
  match e with
  | Base b => be_select_field b
  | QueryColumn _ _ => _get_name e
  end.

(** [_QueryColumn._get_tables()]: the table expressions the column refers
    to, by their identity: its query alone. *)
Definition QueryColumn_get_tables (column : expr) (query : N) : gset N :=
  {[ query ]}.

(** Modelled from the spec: the base class [ColumnCollection] of
    [column_collection.py], which is not embedded here; the ordered name
    space of output columns of section 3: the columns in order, their names
    in the same order, and lookup of a column by its name. *)
Record ColumnCollection := {
  cc_columns : list expr
}.

(** Modelled from the spec: [ColumnCollection.getNames()], the names of the
    columns in order. *)
Definition getNames (cc : ColumnCollection) : list string :=
  map _get_name (cc_columns cc).

(** Modelled from the spec: [ColumnCollection.__getitem__(key)], the column
    of that name. *)
Definition getitem (cc : ColumnCollection) (key : string) : result expr :=
  match List.find (λ c, bool_decide (_get_name c = key)) (cc_columns cc) with
  | Some c => inr c
  | None => inl (KeyError key)
  end.

(** The query specification, of which [query.py] reads [select_exprs]. *)
Record QuerySpec := {
  select_exprs : list expr
}.

(** The class [_QueryColumnCollection]: a [ColumnCollection] that
    remembers its query. *)
Record QueryColumnCollection := {
  _query : N;
  cc_super :> ColumnCollection
}.

(** [_QueryColumnCollection.__init__(query)] *)
Definition _QueryColumnCollection (query : N) (spec : QuerySpec)
    : QueryColumnCollection :=
  {| _query := query;
     cc_super := {| cc_columns := map (λ e, QueryColumn e query) (select_exprs spec) |} |}.

(** [_QueryColumnCollection._get_tables()] *)
Definition QueryColumnCollection_get_tables (self : QueryColumnCollection) : gset N :=
  {[ _query self ]}.

(** A [Query] object: the attributes [Query.__init__] assigns. *)
Record query_obj := {
  _db : database;
  _spec : QuerySpec;
  _statement : string;
  _params : list pyval;
  _columns : QueryColumnCollection;
  _return_type : collections.namedtuple_type
}.

(** ** The world *)

(** Modelled from the spec: the connection pool of [breezeblocks/pool.py],
    which is not embedded here.  Section 4.4: a bounded collection of live
    connections, tracking which are idle and which are checked out. *)
Record pool_state := {
  p_dbapi : dbapi;
  p_minconn : nat;
  p_maxconn : nat;
  p_args : list pyval;
  p_kwargs : kwargs;
  p_idle : list conn;
  p_out : list conn;
  p_closing : bool
}.

Record world := {
  w_pools : gmap loc pool_state;
  w_queries : gmap N query_obj;
  w_log : list event
}.

Definition M (A : Type) : Type := world → outcome A * world.

Global Instance M_ret : MRet M := λ A a w, (Ok a, w).
Global Instance M_bind : MBind M := λ A B f m w,
  match m w with
  | (Ok a, w') => f a w'
  | (Raise e, w') => (Raise e, w')
  | (Blocked, w') => (Blocked, w')
  end.

Definition raise {A} (e : exc) : M A := λ w, (Raise e, w).
Definition block {A} : M A := λ w, (Blocked, w).
Definition get_log : M (list event) := λ w, (Ok (w_log w), w).
Definition emit (ev : event) : M unit :=
  λ w, (Ok tt, {| w_pools := w_pools w; w_queries := w_queries w;
                  w_log := ev :: w_log w |}).
Definition lift_result {A} (r : result A) : M A :=
  match r with inl e => raise e | inr a => mret a end.
Definition raise_if (o : option exc) : M unit :=
  match o with Some e => raise e | None => mret tt end.

(** [try: body  except: handler(exc)  else: handler(None)], where the
    handler says whether the exception is swallowed: the protocol of the
    [with] statement once [__enter__] has returned.  [None] is returned when
    the body raised and the handler swallowed the exception. *)
Definition with_exit {A} (body : M A) (exit_ : option exc → M bool) : M (option A) :=
  λ w, match body w with
       | (Ok a, w1) =>
           match exit_ None w1 with
           | (Ok _, w2) => (Ok (Some a), w2)
           | (Raise e, w2) => (Raise e, w2)
           | (Blocked, w2) => (Blocked, w2)
           end
       | (Raise e, w1) =>
           match exit_ (Some e) w1 with
           | (Ok true, w2) => (Ok None, w2)
           | (Ok false, w2) => (Raise e, w2)
           | (Raise e', w2) => (Raise e', w2)
           | (Blocked, w2) => (Blocked, w2)
           end
       | (Blocked, w1) => (Blocked, w1)
       end.

(** *** Driver calls *)

Definition is_connect (ev : event) : bool :=
  match ev with EvConnect _ _ => true | _ => false end.

(** [dbapi.connect] with positional and keyword arguments: the new
    connection is named by the number of earlier [connect] calls. *)
Definition dbapi_connect (d : dbapi) (args : list pyval) (kw : kwargs) : M conn :=
  log ← get_log;
  emit (EvConnect args kw);;
  raise_if (connect_raises d log args kw);;
  mret (length (List.filter is_connect log)).

Definition conn_cursor (d : dbapi) (c : conn) : M unit :=
  log ← get_log;
  emit (EvCursor c);;
  raise_if (cursor_raises d log c).

Definition cur_execute (d : dbapi) (c : conn) (statement : string)
    (params : list pyval) : M unit :=
  log ← get_log;
  emit (EvExecute c statement params);;
  raise_if (execute_raises d log c statement params).

Definition cur_fetchall (d : dbapi) (c : conn) : M (list row) :=
  log ← get_log;
  emit (EvFetchall c);;
  lift_result (fetchall_returns d log c).

Definition cur_close (d : dbapi) (c : conn) : M unit :=
  log ← get_log;
  emit (EvCursorClose c);;
  raise_if (close_raises d log c).

(** *** The pool objects of the world *)

Definition read_pool (l : loc) : M pool_state :=
  λ w, match w_pools w !! l with
       | Some p => (Ok p, w)
       | None => (Raise (AttributeError "pool"), w)
       end.

Definition write_pool (l : loc) (p : pool_state) : M unit :=
  λ w, (Ok tt, {| w_pools := <[l := p]> (w_pools w); w_queries := w_queries w;
                  w_log := w_log w |}).

(** *** The query objects of the world, named by their identity [id(self)] *)

Definition read_query (self : N) : M query_obj :=
  λ w, match w_queries w !! self with
       | Some q => (Ok q, w)
       | None => (Raise (AttributeError "_statement"), w)
       end.

Definition write_query (self : N) (q : query_obj) : M unit :=
  λ w, (Ok tt, {| w_pools := w_pools w; w_queries := <[self := q]> (w_queries w);
                  w_log := w_log w |}).

Definition fresh_id : M N :=
  λ w, (Ok (fresh (dom (w_queries w))), w).

Definition fresh_loc : M loc :=
  λ w, (Ok (fresh (dom (w_pools w))), w).

Definition set_idle_out (p : pool_state) (idle out : list conn) : pool_state :=
  {| p_dbapi := p_dbapi p; p_minconn := p_minconn p; p_maxconn := p_maxconn p;
     p_args := p_args p; p_kwargs := p_kwargs p;
     p_idle := idle; p_out := out; p_closing := p_closing p |}.

Module Pool.

(** Modelled from the spec: the pool constructor [ConnectionPool.__init__].
    Section 4.4: [minconn] idle connections are pre-opened eagerly at
    construction; a failure to open a connection propagates. *)
Fixpoint open_idle (d : dbapi) (args : list pyval) (kw : kwargs) (n : nat)
    : M (list conn) :=
  match n with
  | O => mret []
  | S n' =>
      c ← dbapi_connect d args kw;
      cs ← open_idle d args kw n';
      mret (c :: cs)
  end.

(** Modelled from the spec: [ConnectionPool(dbapi, minconn, maxconn, ...)],
    a new pool object with its [minconn] idle connections. *)
Definition __init__ (d : dbapi) (minconn maxconn : nat)
    (args : list pyval) (kw : kwargs) : M loc :=
  idle ← open_idle d args kw minconn;
  l ← fresh_loc;
  write_pool l {| p_dbapi := d; p_minconn := minconn; p_maxconn := maxconn;
                  p_args := args; p_kwargs := kw;
                  p_idle := idle; p_out := []; p_closing := false |};;
  mret l.

(** Modelled from the spec: checkout, the entry of the scoped handle that
    [pool.get()] returns.  Section 4.4: an idle connection is reused; with
    none idle a new one is opened while the pool is below [maxconn];
    otherwise the caller waits. *)
Definition get (l : loc) : M conn :=
  p ← read_pool l;
  match p_idle p with
  | c :: idle =>
      write_pool l (set_idle_out p idle (c :: p_out p));;
      mret c
  | [] =>
      if decide (length (p_out p) < p_maxconn p) then
        c ← dbapi_connect (p_dbapi p) (p_args p) (p_kwargs p);
        p' ← read_pool l;
        write_pool l (set_idle_out p' (p_idle p') (c :: p_out p'));;
        mret c
      else block
  end.

Fixpoint remove_conn (c : conn) (cs : list conn) : list conn :=
  match cs with
  | [] => []
  | c' :: cs' => if decide (c = c') then cs' else c' :: remove_conn c cs'
  end.

(** Modelled from the spec: the exit of the scoped handle.  Section 4.4:
    on scope exit the connection is returned to the idle set, not closed,
    unless the pool is shutting down.  Section 7: driver failures are
    propagated unchanged, so the handle never swallows the exception of
    the block ([False] is returned). *)
Definition __exit__ (l : loc) (c : conn) (e : option exc) : M bool :=
  p ← read_pool l;
  write_pool l (set_idle_out p
    (if p_closing p then p_idle p else p_idle p ++ [c])
    (remove_conn c (p_out p)));;
  mret false.

End Pool.

(** ** [breezeblocks/database.py] *)

(** [_get_param_marker(dbapi_module)] *)
Definition _get_param_marker (dbapi_module : dbapi) : result string :=
  if decide (paramstyle dbapi_module = "qmark") then inr "?"
  else if decide (paramstyle dbapi_module = "format") then inr "%s"
  else if decide (paramstyle dbapi_module = "pyformat") then inr "%s"
  else inl UnsupportedModuleError.

Module Database.

Abbreviation t := database.

(** [self.name]; reading an attribute that was never assigned raises
    [AttributeError]. *)
Definition getattr (self : t) (name : string) : M attr :=
  match self !! name with
  | Some a => mret a
  | None => raise (AttributeError name)
  end.

(** [Database.__init__]; the defaults of the source are
    [connect_args=None], [connect_kwargs=None], [dbapi_module=None],
    [dsn=None], [minconn=10], [maxconn=20]. *)
Definition __init__ (connect_args : option (list pyval))
    (connect_kwargs : option kwargs) (dbapi_module : option dbapi)
    (dsn : option string) (minconn maxconn : nat) : M t :=
  let self : t := <["_dsn" := ADsn dsn]> ∅ in
  let self : t := <["_dbapi" := ADbapi dbapi_module]> self in
  match dbapi_module with
  | None => raise MissingModuleError
  | Some d =>
      marker ← lift_result (_get_param_marker d);
      let self : t := <["_param_marker" := AStr marker]> self in
      let connect_args := default [] connect_args in
      let connect_kwargs := default ∅ connect_kwargs in
      let connect_args :=
        match dsn with
        | Some s => PyStr s :: connect_args
        | None => connect_args
        end in
      l ← Pool.__init__ d minconn maxconn connect_args connect_kwargs;
      mret (<["pool" := APool l]> self)
  end.

(** [Database.connect]: the callee [self._dbapi.connect] is evaluated
    first, then the arguments from left to right. *)
Definition connect (self : t) : M conn :=
  a_dbapi ← getattr self "_dbapi";
  d ← match a_dbapi with
      | ADbapi (Some d) => mret d
      | _ => raise (AttributeError "connect")
      end;
  a_dsn ← getattr self "_dsn";
  a_args ← getattr self "_connection_args";
  a_kwargs ← getattr self "_connection_kwargs";
  match a_dsn, a_args, a_kwargs with
  | ADsn dsn, AList args, ADict kw =>
      dbapi_connect d (from_option PyStr PyNone dsn :: args) kw
  | _, _, _ => raise (TypeError "connect")
  end.

End Database.


(** ** [breezeblocks/sql/query.py] *)

Module Query.

Abbreviation t := query_obj.

(** [Query.__init__(spec, statement, params, db=None)]; [id] is [id(self)],
    the identity of the object under construction. *)
Definition __init__ {I : collections.Interpreter} (id : N) (spec : QuerySpec)
    (statement : string) (params : list pyval) (db : option database)
    : result t :=
  match db with
  | None => inl (QueryError "Attempting to query without a database.")
  | Some db =>
      let columns := _QueryColumnCollection id spec in
      return_type ← collections.namedtuple
        ("QueryResult_" +:+ pretty id) (getNames columns) true;
      inr {| _db := db; _spec := spec;
             _statement := statement; _params := params;
             _columns := columns; _return_type := return_type |}
  end.

(** The call [Query(spec, statement, params, db=db)]: a new object is
    allocated, initialised, and its identity returned. *)
Definition new {I : collections.Interpreter} (spec : QuerySpec)
    (statement : string) (params : list pyval) (db : option database) : M N :=
  id ← fresh_id;
  q ← lift_result (__init__ id spec statement params db);
  write_query id q;;
  mret id.

(** The property [Query.columns] *)
Definition columns (self : t) : QueryColumnCollection := _columns self.

(** The [LIMIT]/[OFFSET] format string of [execute]: both of its
    replacement fields are written with index 0. *)
Definition limit_offset_template : list piece :=
  [Lit (nl +:+ "LIMIT "); Field 0; Lit " OFFSET "; Field 0].

(** The first lines of [execute]: the statement text sent to the driver. *)
Definition paged_statement (self : t) (limit offset : option Z) : result string :=
  let statement := _statement self in
  match limit with
  | Some lim =>
      match offset with
      | Some off =>
          suffix ← format limit_offset_template [PyInt lim; PyInt off];
          inr (statement +:+ suffix)
      | None => inr (statement +:+ (nl +:+ "LIMIT ") +:+ str (PyInt lim))
      end
  | None => inr statement
  end.

(** [Query._process_result(r)] *)
Definition _process_result (self : t) (r : row) : result collections.namedtuple_value :=
  collections._make (_return_type self) r.

(** The body of the [with] block of [execute]. *)
Definition fetch (d : dbapi) (c : conn) (statement : string)
    (params : list pyval) : M (list row) :=
  conn_cursor d c;;
  cur_execute d c statement params;;
  results ← cur_fetchall d c;
  cur_close d c;;
  mret results.

(** [self._db.pool], as far as a pool object is expected there. *)
Definition pool_of (db : database) : M loc :=
  a_pool ← Database.getattr db "pool";
  match a_pool with
  | APool l => mret l
  | _ => raise (AttributeError "get")
  end.

(** [Query.execute(limit=None, offset=None)] on the object [self].  The
    attributes are read from the object when the source reads them, and the
    driver works on the connection the pool hands out. *)
Definition execute (self : N) (limit offset : option Z)
    : M (list collections.namedtuple_value) :=
  q ← read_query self;
  statement ← lift_result (paged_statement q limit offset);
  l ← pool_of (_db q);
  c ← Pool.get l;
  p ← read_pool l;
  q ← read_query self;
  fetched ← with_exit (fetch (p_dbapi p) c statement (_params q))
                      (Pool.__exit__ l c);
  let results := default [] fetched in
  q ← read_query self;
  lift_result (mapM (_process_result q) results).

(** [Query.getColumn(key)] *)
Definition getColumn (self : t) (key : string) : result expr :=
  getitem (_columns self) key.

(** [Query._get_from_field()] *)
Definition _get_from_field (self : t) : string :=
  "(" +:+ _statement self +:+ ")".

(** [Query._get_selectables()] *)
Definition _get_selectables (self : t) : result (list expr) :=
  mapM (getitem (_columns self)) (getNames (_columns self)).

(** [Query._get_params()] *)
Definition _get_params (self : t) : list pyval := _params self.

(** [Query._get_statement()] *)
Definition _get_statement (self : t) : string := _statement self.

(** The attributes [Query.__init__] assigns to an instance. *)
Definition instance_attributes : list string :=
  ["_db"; "_spec"; "_statement"; "_params"; "_columns"; "_return_type"].

(** The names the body of class [Query] defines. *)
Definition class_attributes : list string :=
  ["__init__"; "columns"; "execute"; "show"; "getColumn"; "as_";
   "_process_result"; "_get_from_field"; "_get_selectables"; "_get_params";
   "_get_statement"].

(** [self.name] on a query object, as to whether the name is found: in the
    instance, then in class [Query], then in its base classes, whose names
    are [inherited]; a name found in none of them raises [AttributeError]. *)
Definition getattribute (inherited : list string) (self : N) (name : string)
    : M unit :=
  _ ← read_query self;
  if bool_decide (name ∈ instance_attributes ++ class_attributes ++ inherited)
  then mret tt
  else raise (AttributeError name).

(** The statement [q.set_param(name, value)] of [test_setQueryParamValue]:
    the attribute [set_param] of [q] is looked up, to be called with the
    arguments. *)
Definition call_set_param (inherited : list string) (self : N) (name : string)
    (value : pyval) : M unit :=
  getattribute inherited self "set_param".

End Query.

(** ** The builder, from the specification

    [query_builder.py] and the expression classes are not embedded here;
    the tests of [base_query_chinook_tests.py] call them.  What follows is
    written from sections 3, 4.1 and 4.2 of the specification. *)

(** A parameter slot source: the optional user-supplied name of a Value
    expression, and its bound value. *)
Definition param := (option string * pyval)%type.

(** A table expression, as far as a builder uses it: its rendering as a
    FROM item and the parameters it brings along (a subquery has some). *)
Record table_expr := {
  te_from_field : string;
  te_params : list param
}.

Global Instance table_expr_eq_dec : EqDecision table_expr.
Proof. solve_decision. Defined.

(** Modelled from the spec: the capability set of an expression (sections
    4.1 and 9), which the missing expression classes implement: rendering as
    a SELECT item and as a reference, the display name a SELECT item adopts,
    the parameters in rendering order (one per Value expression), and the
    table expressions referred to. *)
Class Expression (E : Type) := {
  render_select : E → string;
  render_ref : E → string;
  display_name : E → string;
  collect_params : E → list param;
  referenced_tables : E → list table_expr
}.

Inductive nulls_order := NullsFirst | NullsLast.

Module QueryBuilder.
Section builder.
Context {E : Type} {HE : Expression E} {I : collections.Interpreter}.

(** Modelled from the spec: the builder of section 3, a mutable accumulator
    of clauses. *)
Record t := {
  qb_db : option Database.t;
  qb_select : list E;
  qb_from : option table_expr;
  qb_where : list E;
  qb_group_by : list E;
  qb_having : list E;
  qb_order_by : list (E * bool * option nulls_order);
  qb_distinct : bool
}.

Definition __init__ (db : option Database.t) : t :=
  {| qb_db := db; qb_select := []; qb_from := None; qb_where := [];
     qb_group_by := []; qb_having := []; qb_order_by := [];
     qb_distinct := false |}.

(** Modelled from the spec: the clause-setting calls of section 4.2. *)
Inductive call :=
  | select (es : list E)
  | from_ (f : table_expr)
  | where_ (e : E)
  | group_by (e : E)
  | having (e : E)
  | order_by (e : E) (ascending : bool) (nulls : option nulls_order)
  | distinct.

Definition step (b : t) (c : call) : t :=
  match c with
  | select es =>
      {| qb_db := qb_db b; qb_select := qb_select b ++ es; qb_from := qb_from b;
         qb_where := qb_where b; qb_group_by := qb_group_by b;
         qb_having := qb_having b; qb_order_by := qb_order_by b;
         qb_distinct := qb_distinct b |}
  | from_ f =>
      {| qb_db := qb_db b; qb_select := qb_select b; qb_from := Some f;
         qb_where := qb_where b; qb_group_by := qb_group_by b;
         qb_having := qb_having b; qb_order_by := qb_order_by b;
         qb_distinct := qb_distinct b |}
  | where_ e =>
      {| qb_db := qb_db b; qb_select := qb_select b; qb_from := qb_from b;
         qb_where := qb_where b ++ [e]; qb_group_by := qb_group_by b;
         qb_having := qb_having b; qb_order_by := qb_order_by b;
         qb_distinct := qb_distinct b |}
  | group_by e =>
      {| qb_db := qb_db b; qb_select := qb_select b; qb_from := qb_from b;
         qb_where := qb_where b; qb_group_by := qb_group_by b ++ [e];
         qb_having := qb_having b; qb_order_by := qb_order_by b;
         qb_distinct := qb_distinct b |}
  | having e =>
      {| qb_db := qb_db b; qb_select := qb_select b; qb_from := qb_from b;
         qb_where := qb_where b; qb_group_by := qb_group_by b;
         qb_having := qb_having b ++ [e]; qb_order_by := qb_order_by b;
         qb_distinct := qb_distinct b |}
  | order_by e ascending nulls =>
      {| qb_db := qb_db b; qb_select := qb_select b; qb_from := qb_from b;
         qb_where := qb_where b; qb_group_by := qb_group_by b;
         qb_having := qb_having b;
         qb_order_by := qb_order_by b ++ [(e, ascending, nulls)];
         qb_distinct := qb_distinct b |}
  | distinct =>
      {| qb_db := qb_db b; qb_select := qb_select b; qb_from := qb_from b;
         qb_where := qb_where b; qb_group_by := qb_group_by b;
         qb_having := qb_having b; qb_order_by := qb_order_by b;
         qb_distinct := true |}
  end.

(** A chain of calls [b.c1(...).c2(...)...]. *)
Definition calls (b : t) (cs : list call) : t := foldl step b cs.

Definition join (sep : string) (parts : list string) : string :=
  match parts with
  | [] => ""
  | p :: ps => foldl (λ acc q, acc +:+ sep +:+ q) p ps
  end.

Definition clause (keyword sep : string) (parts : list string) : string :=
  match parts with
  | [] => ""
  | _ => nl +:+ keyword +:+ " " +:+ join sep parts
  end.

Definition render_order (k : E * bool * option nulls_order) : string :=
  let '(e, ascending, nulls) := k in
  render_ref e +:+ (if ascending then " ASC" else " DESC")
  +:+ match nulls with
      | None => ""
      | Some NullsFirst => " NULLS FIRST"
      | Some NullsLast => " NULLS LAST"
      end.

(** Modelled from the spec: the FROM item of section 4.2, the explicit one
    or else the only table expression the SELECT list and the WHERE tree
    refer to. *)
Definition derive_from (b : t) : result table_expr :=
  match qb_from b with
  | Some f => inr f
  | None =>
      match remove_dups (concat (map referenced_tables (qb_select b ++ qb_where b))) with
      | [f] => inr f
      | [] => inl (QueryError "No FROM item.")
      | _ => inl (QueryError "Ambiguous FROM item.")
      end
  end.

(** Modelled from the spec: the fixed rendering order of section 4.2, SELECT
    (DISTINCT) list, FROM, WHERE, GROUP BY, HAVING, ORDER BY. *)
Definition render (b : t) (f : table_expr) : string :=
  (if qb_distinct b then "SELECT DISTINCT " else "SELECT ")
  +:+ join ", " (map render_select (qb_select b))
  +:+ nl +:+ "FROM " +:+ te_from_field f
  +:+ clause "WHERE" " AND " (map render_ref (qb_where b))
  +:+ clause "GROUP BY" ", " (map render_ref (qb_group_by b))
  +:+ clause "HAVING" " AND " (map render_ref (qb_having b))
  +:+ clause "ORDER BY" ", " (map render_order (qb_order_by b)).

(** Modelled from the spec: the parameters, collected by walking the same
    clauses in the same order. *)
Definition params_of (b : t) (f : table_expr) : list param :=
  concat (map collect_params (qb_select b))
  ++ te_params f
  ++ concat (map collect_params (qb_where b))
  ++ concat (map collect_params (qb_group_by b))
  ++ concat (map collect_params (qb_having b))
  ++ concat (map collect_params (qb_order_by b).*1.*1).

(** The select expression the finalized query keeps for a SELECT item. *)
Definition as_select_expr (e : E) : expr :=
  Base {| be_name := display_name e; be_select_field := render_select e;
          be_ref_field := render_ref e |}.

(** Modelled from the spec: the terminal call [get()] of section 4.2, which
    validates the clauses and only then constructs the [Query]. *)
Definition get (b : t) : M N :=
  f ← lift_result (derive_from b);
  match qb_having b, qb_group_by b with
  | _ :: _, [] => raise (QueryError "HAVING requires GROUP BY.")
  | _, _ =>
      Query.new {| select_exprs := map as_select_expr (qb_select b) |}
        (render b f) (params_of b f).*2 (qb_db b)
  end.

End builder.

End QueryBuilder.

(** Modelled from the spec: the expression kinds of section 3 that the
    tests use, as one implementation of the capability set above. *)
Inductive sql_expr :=
  | Column (table column : string)
  | Value (v : pyval) (param_name : option string)
  | Operator (op : string) (left right : sql_expr)
  | Aggregate (fn : string) (arg : sql_expr)
  | Aliased (e : sql_expr) (alias : string).

Module SqlExpr.
Section marker.
(** The placeholder of the driver, [Database._param_marker]. *)
Variable marker : string.

Fixpoint select_field (e : sql_expr) : string :=
  match e with
  | Column table column => table +:+ "." +:+ column
  | Value _ _ => marker
  | Operator op l r => "(" +:+ select_field l +:+ ") " +:+ op +:+ " (" +:+ select_field r +:+ ")"
  | Aggregate fn arg => fn +:+ "(" +:+ select_field arg +:+ ")"
  | Aliased e alias => select_field e +:+ " AS " +:+ alias
  end.

Fixpoint ref_field (e : sql_expr) : string :=
  match e with
  | Column _ column => column
  | Value _ _ => marker
  | Operator op l r => "(" +:+ ref_field l +:+ ") " +:+ op +:+ " (" +:+ ref_field r +:+ ")"
  | Aggregate fn arg => fn +:+ "(" +:+ ref_field arg +:+ ")"
  | Aliased _ alias => alias
  end.

(** Explicit alias, or the natural name; an expression with neither has the
    empty name, which the row decoder replaces by a positional one. *)
Definition name_of (e : sql_expr) : string :=
  match e with
  | Column _ column => column
  | Aliased _ alias => alias
  | _ => ""
  end.

Fixpoint params (e : sql_expr) : list param :=
  match e with
  | Column _ _ => []
  | Value v param_name => [(param_name, v)]
  | Operator _ l r => params l ++ params r
  | Aggregate _ arg => params arg
  | Aliased e _ => params e
  end.

Fixpoint tables (e : sql_expr) : list table_expr :=
  match e with
  | Column table _ => [{| te_from_field := table; te_params := [] |}]
  | Value _ _ => []
  | Operator _ l r => tables l ++ tables r
  | Aggregate _ arg => tables arg
  | Aliased e _ => tables e
  end.

Definition expression : Expression sql_expr :=
  {| render_select := select_field; render_ref := ref_field;
     display_name := name_of; collect_params := params;
     referenced_tables := tables |}.

End marker.
End SqlExpr.

(** The driver calls of the [with] block of [execute], in program order. *)
Definition fetch_calls (c : conn) (statement : string) (params : list pyval)
    : list event :=
  [EvCursor c; EvExecute c statement params; EvFetchall c; EvCursorClose c].

(** ** Vocabulary of the properties *)

(** [effect P m]: whatever [m] returns, the query objects are as before and
    the log has grown by driver calls that all satisfy [P]. *)
Definition effect {A} (P : event → Prop) (m : M A) : Prop :=
  ∀ w, w_queries (m w).2 = w_queries w
       ∧ ∃ evs, w_log (m w).2 = evs ++ w_log w ∧ Forall P evs.

(** The driver calls of one [execute]: any call but [cursor.execute], and
    [cursor.execute] with this statement and these parameters. *)
Definition sends (statement : string) (params : list pyval) (ev : event) : Prop :=
  match ev with
  | EvExecute _ s ps => s = statement ∧ ps = params
  | _ => True
  end.

(** The world with more driver calls in its log. *)
Definition add_log (evs : list event) (w : world) : world :=
  {| w_pools := w_pools w; w_queries := w_queries w; w_log := evs ++ w_log w |}.

(** ** Fixtures, after [src/test/base_query_chinook_tests.py] *)

Module Chinook.

(** The names of the fixtures are ASCII. *)
#[local] Existing Instance collections.ascii_only.

(** A driver that never fails and answers every statement with two rows of
    one column. *)
Definition driver (style : string) : dbapi :=
  {| paramstyle := style;
     connect_raises := λ _ _ _, None;
     cursor_raises := λ _ _, None;
     execute_raises := λ _ _ _ _, None;
     fetchall_returns := λ _ _, inr [[PyInt 1]; [PyInt 2]];
     close_raises := λ _ _, None |}.

(** A driver whose [execute] fails with the given error. *)
Definition broken_driver (e : exc) : dbapi :=
  {| paramstyle := "qmark";
     connect_raises := λ _ _ _, None;
     cursor_raises := λ _ _, None;
     execute_raises := λ _ _ _ _, Some e;
     fetchall_returns := λ _ _, inr [];
     close_raises := λ _ _, None |}.

Definition empty_world : world :=
  {| w_pools := ∅; w_queries := ∅; w_log := [] |}.

Definition Track_GenreId : sql_expr := Column "Track" "GenreId".
Definition Track_TrackId : sql_expr := Column "Track" "TrackId".

(** The select expression of [Track.GenreId] in a finalized query. *)
Definition GenreId : expr :=
  Base {| be_name := "GenreId"; be_select_field := "Track.GenreId";
          be_ref_field := "GenreId" |}.

(** The expressions of the tests render their values with [?]. *)
Definition expression : Expression sql_expr := SqlExpr.expression "?".

(** [Database(dsn=..., dbapi_module=..., minconn=1, maxconn=2)] *)
Definition setup (d : dbapi) : M database :=
  Database.__init__ None None (Some d) (Some "chinook.db") 1 2.

(** The query of [test_setQueryParamValue]: the genre of a track, compared
    with a value named [genre_id]. *)
Definition genre_query (genre1_id : Z) : M N :=
  db ← setup (driver "qmark");
  QueryBuilder.get (HE := expression)
    (QueryBuilder.calls (QueryBuilder.__init__ (Some db))
       [QueryBuilder.select [Track_GenreId];
        QueryBuilder.where_
          (Operator "=" Track_GenreId (Value (PyInt genre1_id) (Some "genre_id")))]).

Definition genre_world : world := (genre_query 1 empty_world).2.

(** The calls of [test_havingMustHaveGroupBy]. *)
Definition having_calls : list (QueryBuilder.call (E:=sql_expr)) :=
  [QueryBuilder.select
     [Track_GenreId; Aliased (Aggregate "COUNT" Track_TrackId) "TrackCount"];
   QueryBuilder.having
     (Operator ">" (Aggregate "COUNT" Track_TrackId) (Value (PyInt 25) None))].

(** A query on a database whose driver fails at [execute]. *)
Definition broken_query (e : exc) : M N :=
  db ← setup (broken_driver e);
  Query.new {| select_exprs := [GenreId] |} "SELECT Track.GenreId FROM Track"
    [] (Some db).

Definition broken_world : world := (broken_query (DriverError 1) empty_world).2.




(** A query of two columns on the driver that answers with rows of one. *)
Definition two_column_query : M N :=
  db ← setup (driver "qmark");
  Query.new {| select_exprs := [GenreId; GenreId] |}
    "SELECT Track.GenreId, Track.GenreId FROM Track" [] (Some db).

Definition two_column_world : world := (two_column_query empty_world).2.

(** A query that selects the same column twice, on a driver that answers
    with one row of two columns. *)
Definition pair_driver : dbapi :=
  {| paramstyle := "qmark";
     connect_raises := λ _ _ _, None;
     cursor_raises := λ _ _, None;
     execute_raises := λ _ _ _ _, None;
     fetchall_returns := λ _ _, inr [[PyInt 1; PyInt 2]];
     close_raises := λ _ _, None |}.

Definition pair_database : database :=
  match (setup pair_driver empty_world).1 with
  | Ok db => db
  | _ => ∅
  end.

Definition pair_query : M N :=
  db ← setup pair_driver;
  Query.new {| select_exprs := [GenreId; GenreId] |}
    "SELECT Track.GenreId, Track.GenreId FROM Track" [] (Some db).

Definition pair_world : world := (pair_query empty_world).2.

(** The database of the tests, and the world once it is set up. *)
Definition database_world : world := (setup (driver "qmark") empty_world).2.

Definition the_database : database :=
  match (setup (driver "qmark") empty_world).1 with
  | Ok db => db
  | _ => ∅
  end.

End Chinook.

(** * Properties *)

Import collections.

(** The examples on the fixtures run on ASCII names; the theorems are stated
    for every interpreter. *)
#[local] Existing Instance ascii_only.

(** ** Strings and the monad *)


Lemma string_app_nil_r (s : string) : s +:+ "" = s.
Proof.
  induction s as [|c s IH]; [done |].
  change (String c (s +:+ "") = String c s). by f_equal.
Qed.

Lemma bind_Ok {A B} (m : M A) (f : A → M B) w a w' :
  m w = (Ok a, w') → (m ≫= f) w = f a w'.
Proof. intros Hm. unfold mbind, M_bind. by rewrite Hm. Qed.

Lemma bind_Raise {A B} (m : M A) (f : A → M B) w e w' :
  m w = (Raise e, w') → (m ≫= f) w = (Raise e, w').
Proof. intros Hm. unfold mbind, M_bind. by rewrite Hm. Qed.

Lemma bind_Blocked {A B} (m : M A) (f : A → M B) w w' :
  m w = (Blocked, w') → (m ≫= f) w = (Blocked, w').
Proof. intros Hm. unfold mbind, M_bind. by rewrite Hm. Qed.

(** ** The paging suffix (C1) *)

(** The suffix for a limit and an offset: the limit is written at both
    places, the offset nowhere. *)
Lemma paged_statement_limit_offset (q : Query.t) (lim off : Z) :
  Query.paged_statement q (Some lim) (Some off)
  = inr (_statement q +:+ nl +:+ "LIMIT " +:+ pretty lim
         +:+ " OFFSET " +:+ pretty lim).
Proof.
  unfold Query.paged_statement, Query.limit_offset_template. simpl.
  by rewrite string_app_nil_r.
Qed.

(** C1, at the input [limit=5, offset=10]: the statement sent ends in
    [LIMIT 5 OFFSET 5], which is not the text [LIMIT 5 OFFSET 10] the offset
    would give. *)
Theorem execute_limit_5_offset_10 (q : Query.t) :
  Query.paged_statement q (Some 5%Z) (Some 10%Z)
    = inr (_statement q +:+ nl +:+ "LIMIT 5 OFFSET 5")
  ∧ Query.paged_statement q (Some 5%Z) (Some 10%Z)
    ≠ inr (_statement q +:+ nl +:+ "LIMIT 5 OFFSET 10").
Proof.
  rewrite paged_statement_limit_offset. split; [done |].
  intros [= Heq]. by apply (inj (String.app _)) in Heq.
Qed.

(** The same in a run: the driver is handed the limit twice. *)
Example limit_5_offset_10_in_the_log :
  w_log (Query.execute 0 (Some 5%Z) (Some 10%Z) Chinook.genre_world).2 !! 2
  = Some (EvExecute 0
            ("SELECT Track.GenreId" +:+ nl +:+ "FROM Track" +:+ nl
             +:+ "WHERE (GenreId) = (?)" +:+ nl +:+ "LIMIT 5 OFFSET 5")
            [PyInt 1]).
Proof. vm_compute. reflexivity. Qed.

(** ** Construction of a query (C7) *)

(** C7: constructing a query with [db=None] raises [QueryError]; the call
    leaves the world as it was (no driver call, no object), and every query
    that was constructed has the database it was given. *)
Theorem query_without_database_raises {I : Interpreter} (id : N)
    (spec : QuerySpec) (statement : string) (params : list pyval) :
  Query.__init__ id spec statement params None
    = inl (QueryError "Attempting to query without a database.")
  ∧ (∀ w, Query.new spec statement params None w
          = (Raise (QueryError "Attempting to query without a database."), w))
  ∧ (∀ db q, Query.__init__ id spec statement params db = inr q →
             db = Some (_db q)).
Proof.
  split; [done |]. split; [done |].
  intros [db|] q; [| done]. unfold Query.__init__.
  destruct (collections.namedtuple _ _ _); simpl; [done |].
  by intros [= <-].
Qed.

Lemma query_without_database_raises_witness :
  ∃ q, Query.__init__ 7 {| select_exprs := [Chinook.GenreId] |}
         "SELECT Track.GenreId" [] (Some ∅) = inr q
       ∧ Some (∅ : database) = Some (_db q).
Proof.
  destruct (query_without_database_raises 7
              {| select_exprs := [Chinook.GenreId] |} "SELECT Track.GenreId" [])
    as (_ & _ & Hdb).
  eexists. split; [reflexivity |]. apply Hdb. reflexivity.
Defined.

(** ** The record class of a query *)

Lemma all_chars_impl (f g : ascii → bool) (s : string) :
  (∀ c, f c = true → g c = true) → all_chars f s = true → all_chars g s = true.
Proof.
  intros Hfg. induction s as [|c s IH]; simpl; [done |].
  rewrite !andb_true_iff. intros [Hc Hs]. auto.
Qed.

Lemma pretty_N_char_digit (x : N) : is_digit (pretty_N_char x) = true.
Proof. unfold pretty_N_char. by repeat case_match. Qed.

Lemma pretty_N_go_digits (x : N) (s : string) :
  all_chars is_digit s = true → all_chars is_digit (pretty_N_go x s) = true.
Proof.
  revert s. induction (N.lt_wf_0 x) as [x _ IH]; intros s Hs.
  destruct (decide (x = 0)%N) as [-> | Hx]; [by rewrite pretty_N_go_0 |].
  rewrite pretty_N_go_step by lia.
  apply IH; [apply N.div_lt; lia |].
  simpl. by rewrite pretty_N_char_digit.
Qed.

Lemma pretty_N_digits (x : N) : all_chars is_digit (pretty x) = true.
Proof.
  unfold pretty, pretty_N. case_decide; [done |]. by apply pretty_N_go_digits.
Qed.

Lemma pretty_nat_digits (i : nat) : all_chars is_digit (pretty i) = true.
Proof. apply pretty_N_digits. Qed.

Lemma underscore_index_app (i : nat) : "_" +:+ pretty i = String "_" (pretty i).
Proof. done. Qed.

Lemma keyword_no_underscore (s : string) :
  iskeyword s = true → startswith_underscore s = false.
Proof.
  unfold iskeyword. intros Hk%bool_decide_eq_true.
  unfold kwlist in Hk. rewrite !elem_of_cons, elem_of_nil in Hk.
  repeat (destruct Hk as [-> | Hk]; [done |]). done.
Qed.

Lemma digit_is_ascii (c : ascii) : is_digit c = true → is_ascii_char c = true.
Proof.
  unfold is_digit, is_ascii_char.
  rewrite andb_true_iff, !Nat.leb_le, Nat.ltb_lt. lia.
Qed.

Lemma positional_ascii (i : nat) : is_ascii (positional i) = true.
Proof.
  change (all_chars is_ascii_char (pretty i) = true).
  apply (all_chars_impl is_digit); [apply digit_is_ascii | apply pretty_nat_digits].
Qed.

Lemma positional_identifier_ascii (i : nat) :
  isidentifier_ascii (positional i) = true.
Proof.
  change (all_chars is_id_continue (pretty i) = true).
  apply (all_chars_impl is_digit); [| apply pretty_nat_digits].
  intros c Hc. unfold is_id_continue. rewrite Hc. apply orb_true_r.
Qed.

Lemma underscore_index_identifier {I : Interpreter} (i : nat) :
  isidentifier ("_" +:+ pretty i) = true.
Proof.
  rewrite (isidentifier_on_ascii _ (positional_ascii i)).
  apply positional_identifier_ascii.
Qed.

Lemma underscore_index_not_keyword (i : nat) :
  iskeyword ("_" +:+ pretty i) = false.
Proof.
  destruct (iskeyword _) eqn:Hk; [| done].
  by apply keyword_no_underscore in Hk.
Qed.

Lemma typename_identifier {I : Interpreter} (id : N) :
  isidentifier ("QueryResult_" +:+ pretty id) = true.
Proof.
  rewrite isidentifier_on_ascii.
  - change (all_chars is_id_continue (pretty id) = true).
    apply (all_chars_impl is_digit); [| apply pretty_N_digits].
    intros c Hc. unfold is_id_continue. rewrite Hc. apply orb_true_r.
  - change (all_chars is_ascii_char (pretty id) = true).
    apply (all_chars_impl is_digit); [apply digit_is_ascii | apply pretty_N_digits].
Qed.

Lemma typename_not_keyword (id : N) :
  iskeyword ("QueryResult_" +:+ pretty id) = false.
Proof.
  apply bool_decide_eq_false. unfold kwlist.
  rewrite !elem_of_cons, elem_of_nil.
  intros H. repeat (destruct H as [H | H]; [discriminate H |]). done.
Qed.

Lemma rename_fields_length {I : Interpreter} (i : nat) (seen : gset string) (names : list string) :
  length (rename_fields i seen names) = length names.
Proof.
  revert i seen. induction names as [|n names IH]; intros i seen; simpl; [done |].
  by rewrite IH.
Qed.

(** The renaming pass, position by position. *)
Lemma rename_fields_lookup {I : Interpreter} (k : nat) (seen : gset string) (names : list string)
    (i : nat) (name : string) :
  names !! i = Some name →
  rename_fields k seen names !! i
  = Some (if keeps_name name && negb (bool_decide (name ∈ seen))
             && negb (bool_decide (name ∈ take i names))
          then name else "_" +:+ pretty (k + i)).
Proof.
  revert k seen i. induction names as [|n names IH]; intros k seen i Hi; [done |].
  destruct i as [|i]; simpl in *.
  - simplify_eq. rewrite Nat.add_0_r. f_equal. unfold keeps_name.
    destruct (isidentifier name), (iskeyword name), (startswith_underscore name),
      (bool_decide (name ∈ seen)); done.
  - rewrite (IH (S k) _ i Hi). rewrite Nat.add_succ_r. f_equal.
    destruct (decide (name = n)) as [-> | Hne].
    + rewrite (bool_decide_eq_true_2 (n ∈ {[n]} ∪ seen)) by set_solver.
      rewrite (bool_decide_eq_true_2 (n ∈ n :: take i names)) by left.
      by rewrite !andb_false_r.
    + rewrite (bool_decide_ext (name ∈ {[n]} ∪ seen) (name ∈ seen))
        by (rewrite elem_of_union, elem_of_singleton; tauto).
      rewrite (bool_decide_ext (name ∈ n :: take i names) (name ∈ take i names));
        [done |].
      rewrite elem_of_cons. tauto.
Qed.

Lemma rename_fields_valid {I : Interpreter} (k : nat) (seen : gset string) (names : list string) :
  Forall (λ f, isidentifier f = true ∧ iskeyword f = false)
         (rename_fields k seen names).
Proof.
  revert k seen. induction names as [|n names IH]; intros k seen; simpl;
    constructor; [| apply IH].
  destruct (isidentifier n) eqn:Hid, (iskeyword n) eqn:Hkw; simpl;
    try (split; [apply underscore_index_identifier
                | apply underscore_index_not_keyword]).
  destruct (startswith_underscore n || bool_decide (n ∈ seen)); [| done].
  split; [apply underscore_index_identifier | apply underscore_index_not_keyword].
Qed.

Lemma check_identifiers_valid {I : Interpreter} (names : list string) :
  Forall (λ f, isidentifier f = true ∧ iskeyword f = false) names →
  check_identifiers names = inr tt.
Proof.
  induction 1 as [|n names [Hid Hkw] _ IH]; simpl; [done |].
  by rewrite Hid, Hkw.
Qed.

Lemma startswith_underscore_index (k : nat) :
  startswith_underscore ("_" +:+ pretty k) = true.
Proof. done. Qed.

(** The second validation loop accepts the renamed fields: what it has seen
    is either an original name without leading underscore that the renaming
    pass has seen too, or the positional name of an earlier index. *)
Lemma check_fields_rename {I : Interpreter} (names : list string) (k : nat)
    (seen seen' : gset string) :
  (∀ x, x ∈ seen' →
        (x ∈ seen ∧ startswith_underscore x = false)
        ∨ ∃ j, j < k ∧ x = "_" +:+ pretty j) →
  check_fields true seen' (rename_fields k seen names) = inr tt.
Proof.
  revert k seen seen'.
  induction names as [|n names IH]; intros k seen seen' Hinv; simpl; [done |].
  rewrite andb_false_r.
  match goal with |- context [bool_decide (?x ∈ seen')] => set (f := x) end.
  assert ((f ∉ seen') ∧
          ((f = n ∧ startswith_underscore n = false) ∨ f = "_" +:+ pretty k))
    as [Hfresh Hf].
  { unfold f.
    destruct (negb (isidentifier n) || iskeyword n) eqn:Hbad; simpl.
    - split; [| by right]. intros [[_ Hu]|(j & Hj & Heq)]%Hinv; [done |].
      apply (inj (String.app "_")), (inj pretty) in Heq. lia.
    - destruct (startswith_underscore n) eqn:Hu; simpl.
      + split; [| by right]. intros [[_ Hu']|(j & Hj & Heq)]%Hinv; [done |].
        apply (inj (String.app "_")), (inj pretty) in Heq. lia.
      + case_bool_decide as Hseen.
        * split; [| by right]. intros [[_ Hu']|(j & Hj & Heq)]%Hinv; [done |].
          apply (inj (String.app "_")), (inj pretty) in Heq. lia.
        * split; [| by left]. intros [[Hin _]|(j & Hj & Heq)]%Hinv; [done |].
          by rewrite Heq in Hu. }
  rewrite bool_decide_eq_false_2 by done.
  apply IH. intros x [Hx%elem_of_singleton | Hx]%elem_of_union.
  - subst x. destruct Hf as [[-> Hu] | ->].
    + left. split; [set_solver | done].
    + right. exists k. split; [lia | done].
  - destruct (Hinv x Hx) as [[Hin Hu] | (j & Hj & ->)].
    + left. split; [by apply elem_of_union_r | done].
    + right. exists j. split; [lia | done].
Qed.

Lemma check_fields_NoDup (rename : bool) (seen : gset string) (fields : list string) :
  check_fields rename seen fields = inr tt →
  NoDup fields ∧ ∀ f, f ∈ fields → f ∉ seen.
Proof.
  revert seen. induction fields as [|f fields IH]; intros seen; simpl.
  - intros _. split; [constructor | by intros ? ?%elem_of_nil].
  - destruct (startswith_underscore f && negb rename); [done |].
    case_bool_decide as Hseen; [done |].
    intros [Hnd Hfresh]%IH. split.
    + constructor; [| done]. intros Hin%Hfresh.
      by apply Hin, elem_of_union_l, elem_of_singleton.
    + intros x [-> | Hx]%elem_of_cons; [done |].
      apply Hfresh in Hx. intros Hin. by apply Hx, elem_of_union_r.
Qed.

(** With [rename=True] the class is always created. *)
(** With [rename=True] the class is created unless the compilation of
    its body fails. *)
Lemma namedtuple_rename {I : Interpreter} (typename : string)
    (names : list string) :
  isidentifier typename = true → iskeyword typename = false →
  namedtuple typename names true
  = match compiles (rename_fields 0 ∅ names) with
    | inl e => inl e
    | inr _ =>
        inr {| nt_typename := typename; nt_fields := rename_fields 0 ∅ names |}
    end.
Proof.
  intros Hid Hkw. unfold namedtuple.
  rewrite check_identifiers_valid
    by (constructor; [done | apply rename_fields_valid]).
  rewrite (check_fields_rename names 0 ∅ ∅); [done |].
  by intros x ?%not_elem_of_empty.
Qed.

(** On ASCII names the renamed fields are such that the class body
    compiles. *)
Lemma rename_fields_compile {I : Interpreter} (names : list string) (k : nat)
    (seen : gset string) :
  Forall (λ n, is_ascii n = true) names →
  Forall (λ f, is_ascii f = true ∧ isidentifier_ascii f = true
               ∧ iskeyword f = false
               ∧ (startswith_underscore f = true → ∃ i, f = positional i))
         (rename_fields k seen names).
Proof.
  intros Hascii. revert k seen.
  induction Hascii as [|n names Hn _ IH]; intros k seen; simpl;
    constructor; [| apply IH].
  assert (is_ascii (positional k) = true ∧ isidentifier_ascii (positional k) = true
          ∧ iskeyword (positional k) = false
          ∧ (startswith_underscore (positional k) = true →
             ∃ i, positional k = positional i)) as Hpos.
  { split; [apply positional_ascii |].
    split; [apply positional_identifier_ascii |].
    split; [apply underscore_index_not_keyword | by exists k]. }
  destruct (isidentifier n) eqn:Hid; simpl; [| done].
  destruct (iskeyword n) eqn:Hkw; simpl; [done |].
  destruct (startswith_underscore n) eqn:Hu; simpl; [done |].
  case_bool_decide; [done |].
  rewrite (isidentifier_on_ascii n Hn) in Hid. by rewrite Hu.
Qed.

Lemma field_lookup_NoDup (fields : list string) (values : list pyval)
    (i : nat) (f : string) :
  NoDup fields → fields !! i = Some f →
  field_lookup f fields values = values !! i.
Proof.
  revert values i. induction fields as [|g fields IH]; intros values i Hnd Hi;
    [done |].
  apply NoDup_cons in Hnd as [Hg Hnd].
  destruct values as [|v values]; [by destruct i |]. simpl.
  destruct i as [|i]; simpl in Hi.
  - simplify_eq. by rewrite decide_True.
  - rewrite decide_False; [exact (IH values i Hnd Hi) |].
    intros ->. apply Hg. by eapply list_elem_of_lookup_2.
Qed.

Lemma result_mapM_cons {A B} (f : A → result B) (x : A) (l : list A) :
  mapM f (x :: l)
  = match f x with
    | inl e => inl e
    | inr y => match mapM f l with inl e => inl e | inr k => inr (y :: k) end
    end.
Proof. done. Qed.

Lemma make_length (cls : namedtuple_type) (r : row) :
  length r = length (nt_fields cls) →
  _make cls r = inr {| nv_type := cls; nv_values := r |}.
Proof. intros Hr. unfold _make. by rewrite decide_True. Qed.

Lemma mapM_make (cls : namedtuple_type) (rows : list row) :
  Forall (λ r, length r = length (nt_fields cls)) rows →
  mapM (_make cls) rows
  = inr (map (λ r, {| nv_type := cls; nv_values := r |}) rows).
Proof.
  induction 1 as [|r rows Hr _ IH]; [done |].
  by rewrite result_mapM_cons, make_length, IH.
Qed.

Lemma getNames_QueryColumnCollection (id : N) (spec : QuerySpec) :
  getNames (_QueryColumnCollection id spec) = map _get_name (select_exprs spec).
Proof.
  unfold getNames, _QueryColumnCollection. simpl.
  rewrite map_map. done.
Qed.

(** What [Query.__init__] does with a database: the record class has the
    renamed names of the select expressions as fields, unless the
    compilation of its body fails. *)
Lemma query_init_Some {I : Interpreter} (id : N) (spec : QuerySpec)
    (statement : string) (params : list pyval) (db : database) :
  Query.__init__ id spec statement params (Some db)
  = match compiles (rename_fields 0 ∅ (map _get_name (select_exprs spec))) with
    | inl e => inl e
    | inr _ =>
        inr {| _db := db; _spec := spec; _statement := statement;
               _params := params; _columns := _QueryColumnCollection id spec;
               _return_type :=
                 {| nt_typename := "QueryResult_" +:+ pretty id;
                    nt_fields :=
                      rename_fields 0 ∅ (map _get_name (select_exprs spec)) |} |}
    end.
Proof.
  unfold Query.__init__.
  rewrite namedtuple_rename
    by (apply typename_identifier || apply typename_not_keyword).
  rewrite getNames_QueryColumnCollection.
  by destruct (compiles _).
Qed.

(** Every query that was constructed is of this form. *)
Lemma query_init_inv {I : Interpreter} (id : N) (spec : QuerySpec)
    (statement : string) (params : list pyval) (db : option database)
    (q : Query.t) :
  Query.__init__ id spec statement params db = inr q →
  ∃ d, db = Some d
    ∧ q = {| _db := d; _spec := spec; _statement := statement;
             _params := params; _columns := _QueryColumnCollection id spec;
             _return_type :=
               {| nt_typename := "QueryResult_" +:+ pretty id;
                  nt_fields :=
                    rename_fields 0 ∅ (map _get_name (select_exprs spec)) |} |}.
Proof.
  destruct db as [d|]; [| done]. rewrite query_init_Some.
  destruct (compiles _); [done |]. intros [= <-]. by exists d.
Qed.

(** With ASCII names for its select expressions a query is always
    constructed. *)
Lemma query_init_ascii {I : Interpreter} (id : N) (spec : QuerySpec)
    (statement : string) (params : list pyval) (db : database) :
  Forall (λ n, is_ascii n = true) (map _get_name (select_exprs spec)) →
  ∃ q, Query.__init__ id spec statement params (Some db) = inr q.
Proof.
  intros Hascii. rewrite query_init_Some.
  rewrite compiles_on_ascii; [by eexists | by apply rename_fields_compile |].
  eapply (check_fields_NoDup true ∅), check_fields_rename.
  by intros x ?%not_elem_of_empty.
Qed.
(** ** Construction of a database (C8, C10) *)


(** What [Database.__init__] does once a module is given. *)
Lemma database_init_Some (connect_args : option (list pyval))
    (connect_kwargs : option kwargs) (d : dbapi)
    (dsn : option string) (minconn maxconn : nat) (w : world) :
  Database.__init__ connect_args connect_kwargs (Some d) dsn minconn maxconn w
  = match _get_param_marker d with
    | inl e => (Raise e, w)
    | inr marker =>
        match Pool.__init__ d minconn maxconn
                (match dsn with
                 | Some s => PyStr s :: default [] connect_args
                 | None => default [] connect_args
                 end) (default ∅ connect_kwargs) w with
        | (Ok l, w') =>
            (Ok (<["pool" := APool l]> (<["_param_marker" := AStr marker]>
                  (<["_dbapi" := ADbapi (Some d)]> (<["_dsn" := ADsn dsn]> ∅)))), w')
        | (Raise e, w') => (Raise e, w')
        | (Blocked, w') => (Blocked, w')
        end
    end.
Proof.
  unfold Database.__init__. destruct (_get_param_marker d) as [e|marker]; [done |].
  simpl. unfold mbind at 1, M_bind. simpl.
  unfold mbind at 1, M_bind.
  by destruct (Pool.__init__ _ _ _ _ _ w) as [[l| |] w'].
Qed.



(** The attributes [Database.__init__] assigns: [_dsn], [_dbapi],
    [_param_marker] and [pool], and no other. *)
Lemma database_init_attributes (connect_args : option (list pyval))
    (connect_kwargs : option kwargs) (dbapi_module : option dbapi)
    (dsn : option string) (minconn maxconn : nat) (w w' : world)
    (self : database) :
  Database.__init__ connect_args connect_kwargs dbapi_module dsn
    minconn maxconn w = (Ok self, w') →
  ∃ d marker l,
    dbapi_module = Some d
    ∧ self = <["pool" := APool l]> (<["_param_marker" := AStr marker]>
               (<["_dbapi" := ADbapi (Some d)]> (<["_dsn" := ADsn dsn]> ∅))).
Proof.
  destruct dbapi_module as [d|]; [| done].
  rewrite database_init_Some.
  destruct (_get_param_marker d) as [e|marker]; [done |].
  destruct (Pool.__init__ _ _ _ _ _ w) as [[l| |] w1]; intros; simplify_eq.
  by exists d, marker, l.
Qed.

(** C10: on every database that [Database.__init__] constructed,
    [connect()] raises [AttributeError] at [self._connection_args], in
    whatever world it is called, and without a driver call. *)
Theorem database_connect_raises (connect_args : option (list pyval))
    (connect_kwargs : option kwargs) (dbapi_module : option dbapi)
    (dsn : option string) (minconn maxconn : nat) (w w' : world)
    (self : database) :
  Database.__init__ connect_args connect_kwargs dbapi_module dsn
    minconn maxconn w = (Ok self, w') →
  ∀ w'', Database.connect self w''
         = (Raise (AttributeError "_connection_args"), w'').
Proof.
  intros Hinit w''.
  apply database_init_attributes in Hinit as (d & marker & l & -> & ->).
  unfold Database.connect, Database.getattr.
  repeat (rewrite lookup_insert_ne by done).
  rewrite lookup_insert_eq.
  unfold mbind at 1, M_bind. simpl.
  unfold mbind at 1, M_bind. simpl.
  repeat (rewrite lookup_insert_ne by done).
  rewrite lookup_insert_eq.
  unfold mbind at 1, M_bind. simpl.
  repeat (rewrite lookup_insert_ne by done).
  by rewrite lookup_empty.
Qed.

Lemma database_connect_raises_witness :
  ∃ self w', Database.__init__ None None (Some (Chinook.driver "qmark"))
               (Some "chinook.db") 1 2 Chinook.empty_world = (Ok self, w')
    ∧ Database.connect self w' = (Raise (AttributeError "_connection_args"), w').
Proof.
  eexists _, _. split; [vm_compute; reflexivity |].
  eapply (database_connect_raises None None (Some (Chinook.driver "qmark"))
            (Some "chinook.db") 1 2 Chinook.empty_world).
  vm_compute; reflexivity.
Defined.

(** ** A query as a table expression (C3) *)

Lemma getitem_found (cols : list expr) (c : expr) :
  c ∈ cols →
  ∃ c', getitem {| cc_columns := cols |} (_get_name c) = inr c'
        ∧ c' ∈ cols ∧ _get_name c' = _get_name c.
Proof.
  unfold getitem. simpl. intros Hc.
  destruct (List.find _ cols) as [c'|] eqn:Hfind.
  - apply find_some in Hfind as [Hin Hname%bool_decide_eq_true].
    exists c'. by rewrite <-list_elem_of_In in Hin.
  - exfalso. rewrite list_elem_of_In in Hc.
    apply (find_none _ _ Hfind) in Hc. by apply bool_decide_eq_false in Hc.
Qed.

Lemma mapM_getitem (cols : list expr) (cs : list expr) :
  cs ⊆ cols →
  ∃ selectables,
    mapM (getitem {| cc_columns := cols |}) (map _get_name cs) = inr selectables
    ∧ map _get_name selectables = map _get_name cs
    ∧ selectables ⊆ cols.
Proof.
  induction cs as [|c cs IH]; intros Hsub.
  - by exists [].
  - destruct IH as (sels & Hsels & Hnames & Hin); [set_solver |].
    destruct (getitem_found cols c) as (c' & Hc' & Hc'in & Hc'name); [set_solver |].
    exists (c' :: sels). simpl map. rewrite result_mapM_cons, Hc', Hsels.
    split; [done |]. split; [by rewrite Hc'name, Hnames |].
    intros x [-> | Hx]%elem_of_cons; [done | by apply Hin].
Qed.

(** C3: the selectables of a constructed query exist, carry the names of its
    select expressions in the same order, and each one renders as that bare
    name as a SELECT item and as a reference; a query that selects them has
    the same column names and the same record fields as the inner query. *)
Theorem subquery_columns {I : Interpreter} (id : N) (spec : QuerySpec) (statement : string)
    (params : list pyval) (db : option database) (inner : Query.t) :
  Query.__init__ id spec statement params db = inr inner →
  ∃ selectables,
    Query._get_selectables inner = inr selectables
    ∧ map _get_name selectables = map _get_name (select_exprs spec)
    ∧ Forall (λ c, _get_select_field c = _get_name c
                   ∧ _get_ref_field c = _get_name c) selectables
    ∧ ∀ id' statement' params' db' outer,
        Query.__init__ id' {| select_exprs := selectables |}
          statement' params' db' = inr outer →
        getNames (_columns outer) = getNames (_columns inner)
        ∧ nt_fields (_return_type outer) = nt_fields (_return_type inner).
Proof.
  intros (d & -> & ->)%query_init_inv.
  unfold Query._get_selectables. simpl _columns.
  rewrite getNames_QueryColumnCollection.
  set (cols := map (λ e, QueryColumn e id) (select_exprs spec)).
  destruct (mapM_getitem cols cols) as (sels & Hsels & Hnames & Hin); [done |].
  assert (map _get_name cols = map _get_name (select_exprs spec)) as Hcols
    by apply getNames_QueryColumnCollection.
  rewrite Hcols in Hsels, Hnames.
  exists sels. split; [exact Hsels |]. split; [done |]. split.
  - apply Forall_forall. intros c Hc%Hin.
    apply list_elem_of_fmap in Hc as (e & -> & _). done.
  - intros id' statement' params' db' outer (d' & -> & ->)%query_init_inv.
    cbn [_columns _return_type nt_fields].
    rewrite !getNames_QueryColumnCollection.
    cbn [select_exprs]. by rewrite Hnames.
Qed.

Lemma subquery_columns_witness :
  ∃ inner selectables,
    Query.__init__ 7 {| select_exprs := [Chinook.GenreId; Chinook.GenreId] |}
      "SELECT Track.GenreId, Track.GenreId" [] (Some ∅) = inr inner
    ∧ Query._get_selectables inner = inr selectables
    ∧ map _get_name selectables = ["GenreId"; "GenreId"].
Proof.
  eexists.
  edestruct (subquery_columns 7
               {| select_exprs := [Chinook.GenreId; Chinook.GenreId] |}
               "SELECT Track.GenreId, Track.GenreId" [] (Some ∅))
    as (sels & Hsels & Hnames & _); [vm_compute; reflexivity |].
  exists sels. split; [vm_compute; reflexivity |].
  split; [exact Hsels | exact Hnames].
Defined.

(** ** What a computation does to the world *)

Create HintDb effect.

Lemma effect_here {A} (P : event → Prop) (m : M A) :
  (∀ w, (m w).2 = w) → effect P m.
Proof. intros Hm w. rewrite Hm. split; [done |]. by exists []. Qed.

Lemma effect_mono {A} (P Q : event → Prop) (m : M A) :
  (∀ ev, P ev → Q ev) → effect P m → effect Q m.
Proof.
  intros HPQ Hm w. destruct (Hm w) as (Hq & evs & Hlog & Hevs).
  split; [done |]. exists evs. split; [done |].
  by eapply Forall_impl.
Qed.

Lemma effect_mret {A} (P : event → Prop) (a : A) : effect P (mret a).
Proof. by apply effect_here. Qed.

Lemma effect_raise {A} (P : event → Prop) (e : exc) : effect P (raise (A:=A) e).
Proof. by apply effect_here. Qed.

Lemma effect_block {A} (P : event → Prop) : effect P (block (A:=A)).
Proof. by apply effect_here. Qed.

Lemma effect_get_log (P : event → Prop) : effect P get_log.
Proof. by apply effect_here. Qed.

Lemma effect_raise_if (P : event → Prop) (o : option exc) : effect P (raise_if o).
Proof. destruct o; by apply effect_here. Qed.

Lemma effect_lift_result {A} (P : event → Prop) (r : result A) :
  effect P (lift_result r).
Proof. destruct r; by apply effect_here. Qed.

Lemma effect_read_pool (P : event → Prop) (l : loc) : effect P (read_pool l).
Proof.
  apply effect_here. intros w. unfold read_pool. by destruct (w_pools w !! l).
Qed.

Lemma effect_read_query (P : event → Prop) (self : N) : effect P (read_query self).
Proof.
  apply effect_here. intros w. unfold read_query. by destruct (w_queries w !! self).
Qed.

Lemma effect_write_pool (P : event → Prop) (l : loc) (p : pool_state) :
  effect P (write_pool l p).
Proof. intros w. split; [done |]. by exists []. Qed.

Lemma effect_fresh_loc (P : event → Prop) : effect P fresh_loc.
Proof. by apply effect_here. Qed.

Lemma effect_emit (P : event → Prop) (ev : event) : P ev → effect P (emit ev).
Proof.
  intros Hev w. split; [done |]. exists [ev]. split; [done |]. by constructor.
Qed.

Lemma effect_bind {A B} (P : event → Prop) (m : M A) (f : A → M B) :
  effect P m → (∀ a, effect P (f a)) → effect P (m ≫= f).
Proof.
  intros Hm Hf w. unfold mbind, M_bind.
  destruct (Hm w) as (Hq & evs & Hlog & Hevs).
  destruct (m w) as [[a|e|] w1]; simpl in *; [| by eauto | by eauto].
  destruct (Hf a w1) as (Hq' & evs' & Hlog' & Hevs').
  split; [congruence |]. exists (evs' ++ evs).
  rewrite Hlog', Hlog, app_assoc. split; [done |]. by apply Forall_app.
Qed.

Lemma effect_with_exit {A} (P : event → Prop) (body : M A)
    (exit_ : option exc → M bool) :
  effect P body → (∀ e, effect P (exit_ e)) → effect P (with_exit body exit_).
Proof.
  intros Hbody Hexit w. unfold with_exit.
  destruct (Hbody w) as (Hq & evs & Hlog & Hevs).
  destruct (body w) as [[a|e|] w1]; simpl in *; [| | by eauto].
  - destruct (Hexit None w1) as (Hq' & evs' & Hlog' & Hevs').
    destruct (exit_ None w1) as [[b|e'|] w2]; simpl in *;
      (split; [congruence |]; exists (evs' ++ evs);
       rewrite Hlog', Hlog, app_assoc; split; [done | by apply Forall_app]).
  - destruct (Hexit (Some e) w1) as (Hq' & evs' & Hlog' & Hevs').
    destruct (exit_ (Some e) w1) as [[[|]|e'|] w2]; simpl in *;
      (split; [congruence |]; exists (evs' ++ evs);
       rewrite Hlog', Hlog, app_assoc; split; [done | by apply Forall_app]).
Qed.

#[export] Hint Resolve effect_mret effect_raise effect_block effect_get_log
  effect_raise_if effect_lift_result effect_read_pool effect_read_query
  effect_write_pool effect_fresh_loc effect_emit : effect.

(** Goals of the form [effect P m], by the structure of [m]. *)
Ltac effect_tac :=
  repeat first
    [ solve [auto with effect]
    | apply effect_bind; [| intros ?]
    | apply effect_with_exit; [| intros ?]
    | match goal with
      | |- effect _ (match ?x with _ => _ end) => destruct x
      | |- effect _ (if ?x then _ else _) => destruct x
      end ].

Lemma effect_dbapi_connect (P : event → Prop) (d : dbapi) args kw :
  P (EvConnect args kw) → effect P (dbapi_connect d args kw).
Proof. intros HP. unfold dbapi_connect. effect_tac. Qed.

Lemma effect_conn_cursor (P : event → Prop) (d : dbapi) c :
  P (EvCursor c) → effect P (conn_cursor d c).
Proof. intros HP. unfold conn_cursor. effect_tac. Qed.

Lemma effect_cur_execute (P : event → Prop) (d : dbapi) c statement params :
  P (EvExecute c statement params) → effect P (cur_execute d c statement params).
Proof. intros HP. unfold cur_execute. effect_tac. Qed.

Lemma effect_cur_fetchall (P : event → Prop) (d : dbapi) c :
  P (EvFetchall c) → effect P (cur_fetchall d c).
Proof. intros HP. unfold cur_fetchall. effect_tac. Qed.

Lemma effect_cur_close (P : event → Prop) (d : dbapi) c :
  P (EvCursorClose c) → effect P (cur_close d c).
Proof. intros HP. unfold cur_close. effect_tac. Qed.

#[export] Hint Resolve effect_dbapi_connect effect_conn_cursor
  effect_cur_execute effect_cur_fetchall effect_cur_close : effect.

#[export] Hint Extern 1 (sends _ _ _) => (simpl; auto) : effect.

Lemma effect_pool_get (P : event → Prop) (l : loc) :
  (∀ args kw, P (EvConnect args kw)) → effect P (Pool.get l).
Proof. intros HP. unfold Pool.get. effect_tac. Qed.

Lemma effect_pool_exit (P : event → Prop) (l : loc) (c : conn) (e : option exc) :
  effect P (Pool.__exit__ l c e).
Proof. unfold Pool.__exit__. effect_tac. Qed.

Lemma effect_fetch (d : dbapi) (c : conn) (statement : string) (params : list pyval) :
  effect (sends statement params) (Query.fetch d c statement params).
Proof. unfold Query.fetch. effect_tac. Qed.

#[export] Hint Resolve effect_pool_get effect_pool_exit effect_fetch : effect.

Lemma effect_execute (self : N) (limit offset : option Z) :
  effect (λ _, True) (Query.execute self limit offset).
Proof.
  unfold Query.execute, Query.pool_of, Database.getattr, Query.fetch.
  effect_tac.
Qed.

Lemma read_query_Some (self : N) (q : Query.t) (w : world) :
  w_queries w !! self = Some q → read_query self w = (Ok q, w).
Proof. intros Hq. unfold read_query. by rewrite Hq. Qed.

Lemma read_pool_Some (l : loc) (p : pool_state) (w : world) :
  w_pools w !! l = Some p → read_pool l w = (Ok p, w).
Proof. intros Hp. unfold read_pool. by rewrite Hp. Qed.

Lemma pool_of_Some (db : database) (l : loc) (w : world) :
  db !! "pool" = Some (APool l) → Query.pool_of db w = (Ok l, w).
Proof.
  intros Hl. unfold Query.pool_of, Database.getattr. rewrite Hl. done.
Qed.

Lemma bind_ext_at {A B} (m : M A) (f g : A → M B) (w : world) :
  (∀ a w', m w = (Ok a, w') → f a w' = g a w') → (m ≫= f) w = (m ≫= g) w.
Proof.
  intros Hfg. unfold mbind, M_bind.
  destruct (m w) as [[a|e|] w'] eqn:Hm; [by apply Hfg | done | done].
Qed.

Lemma effect_queries {A} (P : event → Prop) (m : M A) (w w' : world)
    (r : outcome A) :
  effect P m → m w = (r, w') → w_queries w' = w_queries w.
Proof. intros Hm Hw. destruct (Hm w) as [Hq _]. by rewrite Hw in Hq. Qed.

Lemma effect_pool_of (P : event → Prop) (db : database) :
  effect P (Query.pool_of db).
Proof. unfold Query.pool_of, Database.getattr. effect_tac. Qed.

#[export] Hint Resolve effect_pool_of : effect.

(** [execute] with the reads of [self] resolved: the object is the same at
    each of them. *)
Lemma execute_unfold (self : N) (q : Query.t) (limit offset : option Z)
    (w : world) :
  w_queries w !! self = Some q →
  Query.execute self limit offset w
  = (statement ← lift_result (Query.paged_statement q limit offset);
     l ← Query.pool_of (_db q);
     c ← Pool.get l;
     p ← read_pool l;
     fetched ← with_exit (Query.fetch (p_dbapi p) c statement (_params q))
                         (Pool.__exit__ l c);
     lift_result (mapM (Query._process_result q) (default [] fetched))) w.
Proof.
  intros Hq. unfold Query.execute.
  rewrite (bind_Ok _ _ w q w) by by apply read_query_Some.
  apply bind_ext_at; intros statement w0 H0.
  apply (effect_queries (λ _, True)) in H0; [| by auto with effect].
  apply bind_ext_at; intros l w1 H1.
  apply (effect_queries (λ _, True)) in H1; [| by apply effect_pool_of].
  apply bind_ext_at; intros c w2 H2.
  apply (effect_queries (λ _, True)) in H2; [| by apply effect_pool_get].
  apply bind_ext_at; intros p w3 H3.
  apply (effect_queries (λ _, True)) in H3; [| by auto with effect].
  rewrite (bind_Ok _ _ w3 q w3) by (apply read_query_Some; congruence).
  apply bind_ext_at; intros fetched w4 H4.
  apply (effect_queries (λ _, True)) in H4.
  - rewrite (bind_Ok _ _ w4 q w4) by (apply read_query_Some; congruence). done.
  - apply effect_with_exit; [| intros ?; apply effect_pool_exit].
    eapply effect_mono; [| apply effect_fetch]. done.
Qed.

(** ** Repeated execution (C9) *)

(** The driver calls of [execute] on a stored query: [cursor.execute] is
    only ever given the stored text with the paging suffix of this call, and
    the stored parameters. *)
Lemma execute_sends (self : N) (q : Query.t) (limit offset : option Z)
    (w : world) :
  w_queries w !! self = Some q →
  ∃ evs, w_log (Query.execute self limit offset w).2 = evs ++ w_log w
    ∧ ∀ c s ps, EvExecute c s ps ∈ evs →
        Query.paged_statement q limit offset = inr s ∧ ps = _params q.
Proof.
  intros Hq. rewrite (execute_unfold self q) by done.
  destruct (Query.paged_statement q limit offset) as [e|statement].
  { exists []. split; [done |]. by intros ??? ?%elem_of_nil. }
  rewrite (bind_Ok _ _ w statement w) by done.
  match goal with |- context [w_log (?m w).2] =>
    assert (effect (sends statement (_params q)) m) as Hm end.
  { effect_tac. }
  destruct (Hm w) as (_ & evs & Hlog & Hevs).
  exists evs. split; [done |].
  intros c s ps Hin. rewrite Forall_forall in Hevs.
  destruct (Hevs _ Hin) as [-> ->]. done.
Qed.

(** C9: [execute], with any paging and whatever it returns or raises,
    leaves every query object as it was; so a query stored as [q] still is
    [q] afterwards, and a further [execute] hands the driver the stored text
    of [q] with the suffix of that further call alone, and the stored
    parameters. *)
Theorem execute_leaves_query_unchanged (self : N) (limit offset : option Z)
    (w : world) :
  let w' := (Query.execute self limit offset w).2 in
  w_queries w' = w_queries w
  ∧ ∀ q limit' offset',
      w_queries w !! self = Some q →
      w_queries w' !! self = Some q
      ∧ ∃ evs, w_log (Query.execute self limit' offset' w').2 = evs ++ w_log w'
          ∧ ∀ c s ps, EvExecute c s ps ∈ evs →
              Query.paged_statement q limit' offset' = inr s
              ∧ ps = _params q.
Proof.
  intros w'.
  assert (w_queries w' = w_queries w) as Hframe
    by apply (effect_execute self limit offset w).
  split; [done |]. intros q limit' offset' Hq.
  rewrite Hframe. split; [done |].
  apply execute_sends. by rewrite Hframe.
Qed.

Lemma execute_leaves_query_unchanged_witness :
  ∃ q, w_queries Chinook.genre_world !! 0%N = Some q
    ∧ w_queries (Query.execute 0 (Some 5%Z) (Some 10%Z) Chinook.genre_world).2
        !! 0%N = Some q.
Proof.
  eexists. split; [vm_compute; reflexivity |].
  destruct (execute_leaves_query_unchanged 0 (Some 5%Z) (Some 10%Z)
              Chinook.genre_world) as [_ Hq].
  eapply (Hq _ None None). vm_compute; reflexivity.
Defined.

(** ** Driver failures (C6) *)

Lemma fetch_execute_raises (d : dbapi) (c : conn) (statement : string)
    (params : list pyval) (e : exc) (w : world) :
  cursor_raises d (w_log w) c = None →
  execute_raises d (EvCursor c :: w_log w) c statement params = Some e →
  Query.fetch d c statement params w
  = (Raise e, add_log [EvExecute c statement params; EvCursor c] w).
Proof.
  intros Hcur Hexe. unfold Query.fetch, conn_cursor, cur_execute.
  unfold mbind, M_bind, get_log, emit, raise_if. simpl.
  rewrite Hcur. simpl. rewrite Hexe. done.
Qed.

Lemma fetch_fetchall_raises (d : dbapi) (c : conn) (statement : string)
    (params : list pyval) (e : exc) (w : world) :
  cursor_raises d (w_log w) c = None →
  execute_raises d (EvCursor c :: w_log w) c statement params = None →
  fetchall_returns d (EvExecute c statement params :: EvCursor c :: w_log w) c
    = inl e →
  Query.fetch d c statement params w
  = (Raise e, add_log [EvFetchall c; EvExecute c statement params; EvCursor c] w).
Proof.
  intros Hcur Hexe Hfetch.
  unfold Query.fetch, conn_cursor, cur_execute, cur_fetchall.
  unfold mbind, M_bind, get_log, emit, raise_if. simpl.
  rewrite Hcur. simpl. rewrite Hexe. simpl. rewrite Hfetch. done.
Qed.

(** The pool after the scoped handle has been left. *)
Lemma pool_exit_eq (l : loc) (c : conn) (e : option exc) (p : pool_state)
    (w : world) :
  w_pools w !! l = Some p →
  Pool.__exit__ l c e w
  = (Ok false,
     {| w_pools := <[l := set_idle_out p
                            (if p_closing p then p_idle p else p_idle p ++ [c])
                            (Pool.remove_conn c (p_out p))]> (w_pools w);
        w_queries := w_queries w; w_log := w_log w |}).
Proof.
  intros Hp. unfold Pool.__exit__.
  rewrite (bind_Ok _ _ w p w) by by apply read_pool_Some. done.
Qed.

Lemma dbapi_connect_world (d : dbapi) (args : list pyval) (kw : kwargs)
    (w : world) :
  (dbapi_connect d args kw w).2 = add_log [EvConnect args kw] w.
Proof.
  unfold dbapi_connect, mbind, M_bind, get_log, emit. simpl.
  by destruct (connect_raises d (w_log w) args kw).
Qed.

(** A checkout that succeeds leaves the pool object in place, with the
    connection added to the checked-out ones. *)
Lemma pool_get_Ok (l : loc) (c : conn) (w w1 : world) :
  Pool.get l w = (Ok c, w1) →
  ∃ p0 p1, w_pools w !! l = Some p0 ∧ w_pools w1 !! l = Some p1
    ∧ p_out p1 = c :: p_out p0
    ∧ p_closing p1 = p_closing p0.
Proof.
  unfold Pool.get. intros Hget.
  destruct (w_pools w !! l) as [p0|] eqn:Hp0.
  2:{ unfold mbind, M_bind, read_pool in Hget. by rewrite Hp0 in Hget. }
  rewrite (bind_Ok _ _ w p0 w) in Hget by by apply read_pool_Some.
  exists p0. destruct (p_idle p0) as [|c0 idle].
  - case_decide; [| done].
    unfold mbind at 1, M_bind in Hget.
    destruct (dbapi_connect _ _ _ w) as [[c'|e|] w0] eqn:Hconn; [| done | done].
    assert (w_pools w0 = w_pools w) as Hpools.
    { pose proof (dbapi_connect_world (p_dbapi p0) (p_args p0) (p_kwargs p0) w)
        as Hw0.
      rewrite Hconn in Hw0. simpl in Hw0. by rewrite Hw0. }
    rewrite (bind_Ok _ _ w0 p0 w0) in Hget
      by (apply read_pool_Some; by rewrite Hpools).
    unfold mbind, M_bind, write_pool, mret, M_ret in Hget. simplify_eq.
    eexists. split; [done |]. split; [apply lookup_insert_eq | done].
  - unfold mbind, M_bind, write_pool, mret, M_ret in Hget. simplify_eq.
    eexists. split; [done |]. split; [apply lookup_insert_eq | done].
Qed.

Lemma remove_conn_head (c : conn) (cs : list conn) :
  Pool.remove_conn c (c :: cs) = cs.
Proof. simpl. by rewrite decide_True. Qed.

(** The driver calls of the [with] block change nothing but the log. *)
Lemma fetch_world (d : dbapi) (c : conn) (statement : string)
    (params : list pyval) (w : world) :
  ∃ evs, (Query.fetch d c statement params w).2 = add_log evs w.
Proof.
  unfold Query.fetch, conn_cursor, cur_execute, cur_fetchall, cur_close.
  unfold mbind, M_bind, get_log, emit, raise_if, lift_result. simpl.
  destruct (cursor_raises d _ c); [by exists [EvCursor c] |]. simpl.
  destruct (execute_raises d _ c statement params);
    [by exists [EvExecute c statement params; EvCursor c] |]. simpl.
  destruct (fetchall_returns d _ c) as [e|rows];
    [by exists [EvFetchall c; EvExecute c statement params; EvCursor c] |]. simpl.
  destruct (close_raises d _ c);
    by exists [EvCursorClose c; EvFetchall c; EvExecute c statement params;
               EvCursor c].
Qed.

Lemma fetch_pools (d : dbapi) (c : conn) (statement : string)
    (params : list pyval) (w w2 : world) (r : outcome (list row)) :
  Query.fetch d c statement params w = (r, w2) → w_pools w2 = w_pools w.
Proof.
  intros Hfetch. destruct (fetch_world d c statement params w) as [evs Hw].
  rewrite Hfetch in Hw. simpl in Hw. by rewrite Hw.
Qed.

(** When the body of the [with] block raises, [execute] raises the same
    exception, after the pool has taken the connection back. *)
Lemma execute_body_raises (self : N) (q : Query.t) (limit offset : option Z)
    (l : loc) (w w1 w2 : world) (c : conn) (p : pool_state)
    (statement : string) (e : exc) :
  w_queries w !! self = Some q →
  _db q !! "pool" = Some (APool l) →
  Query.paged_statement q limit offset = inr statement →
  Pool.get l w = (Ok c, w1) →
  w_pools w1 !! l = Some p →
  Query.fetch (p_dbapi p) c statement (_params q) w1 = (Raise e, w2) →
  Query.execute self limit offset w
  = (Raise e,
     {| w_pools := <[l := set_idle_out p
                            (if p_closing p then p_idle p else p_idle p ++ [c])
                            (Pool.remove_conn c (p_out p))]> (w_pools w1);
        w_queries := w_queries w2; w_log := w_log w2 |}).
Proof.
  intros Hq Hl Hstmt Hget Hp Hfetch.
  pose proof (fetch_pools _ _ _ _ _ _ _ Hfetch) as Hpools.
  rewrite (execute_unfold self q) by done. rewrite Hstmt.
  rewrite (bind_Ok _ _ w statement w) by done.
  rewrite (bind_Ok _ _ w l w) by by apply pool_of_Some.
  rewrite (bind_Ok _ _ w c w1) by done.
  rewrite (bind_Ok _ _ w1 p w1) by by apply read_pool_Some.
  apply bind_Raise. unfold with_exit. rewrite Hfetch.
  rewrite (pool_exit_eq l c (Some e) p w2) by by rewrite Hpools.
  by rewrite Hpools.
Qed.

(** When the body of the [with] block returns rows of the width of the
    SELECT list, [execute] returns their records, in order, after the pool
    has taken the connection back. *)
Lemma execute_decodes_rows (self : N) (q : Query.t) (limit offset : option Z)
    (l : loc) (w w1 w2 : world) (c : conn) (p : pool_state)
    (statement : string) (rows : list row) :
  w_queries w !! self = Some q →
  _db q !! "pool" = Some (APool l) →
  Query.paged_statement q limit offset = inr statement →
  Pool.get l w = (Ok c, w1) →
  w_pools w1 !! l = Some p →
  Query.fetch (p_dbapi p) c statement (_params q) w1 = (Ok rows, w2) →
  Forall (λ r, length r = length (nt_fields (_return_type q))) rows →
  Query.execute self limit offset w
  = (Ok (map (λ r, {| nv_type := _return_type q; nv_values := r |}) rows),
     {| w_pools := <[l := set_idle_out p
                            (if p_closing p then p_idle p else p_idle p ++ [c])
                            (Pool.remove_conn c (p_out p))]> (w_pools w1);
        w_queries := w_queries w2; w_log := w_log w2 |}).
Proof.
  intros Hq Hl Hstmt Hget Hp Hfetch Hrows.
  pose proof (fetch_pools _ _ _ _ _ _ _ Hfetch) as Hpools.
  rewrite (execute_unfold self q) by done. rewrite Hstmt.
  rewrite (bind_Ok _ _ w statement w) by done.
  rewrite (bind_Ok _ _ w l w) by by apply pool_of_Some.
  rewrite (bind_Ok _ _ w c w1) by done.
  rewrite (bind_Ok _ _ w1 p w1) by by apply read_pool_Some.
  erewrite bind_Ok.
  2:{ unfold with_exit. rewrite Hfetch.
      rewrite (pool_exit_eq l c None p w2) by by rewrite Hpools. done. }
  simpl. unfold Query._process_result. rewrite mapM_make by done.
  by rewrite Hpools.
Qed.

(** C6: when the driver's [execute] or [fetchall] fails inside
    [Query.execute], the call raises that very exception and returns no
    rows; the driver has been asked to execute the statement once and is not
    asked again; the query objects are untouched; and the pool has the
    connection back: the checked-out connections are those from before the
    call, the connection is idle again (unless the pool is shutting down),
    and no other pool has changed. *)
Theorem execute_driver_failure (self : N) (q : Query.t)
    (limit offset : option Z) (l : loc) (w w1 : world) (c : conn)
    (p : pool_state) (statement : string) (e : exc) :
  w_queries w !! self = Some q →
  _db q !! "pool" = Some (APool l) →
  Query.paged_statement q limit offset = inr statement →
  Pool.get l w = (Ok c, w1) →
  w_pools w1 !! l = Some p →
  cursor_raises (p_dbapi p) (w_log w1) c = None →
  execute_raises (p_dbapi p) (EvCursor c :: w_log w1) c statement (_params q)
    = Some e
  ∨ (execute_raises (p_dbapi p) (EvCursor c :: w_log w1) c statement (_params q)
       = None
     ∧ fetchall_returns (p_dbapi p)
         (EvExecute c statement (_params q) :: EvCursor c :: w_log w1) c
       = inl e) →
  ∃ w' evs p0 p',
    Query.execute self limit offset w = (Raise e, w')
    ∧ w_log w' = evs ++ EvExecute c statement (_params q) :: EvCursor c :: w_log w1
    ∧ (evs = [] ∨ evs = [EvFetchall c])
    ∧ w_queries w' = w_queries w
    ∧ w_pools w !! l = Some p0
    ∧ w_pools w' !! l = Some p'
    ∧ p_out p' = p_out p0
    ∧ p_idle p' = (if p_closing p0 then p_idle p else p_idle p ++ [c])
    ∧ ∀ l', l' ≠ l → w_pools w' !! l' = w_pools w1 !! l'.
Proof.
  intros Hq Hl Hstmt Hget Hp Hcur Hfail.
  destruct (pool_get_Ok l c w w1 Hget) as (p0 & p1 & Hp0 & Hp1 & Hout & Hclosing).
  assert (p1 = p) as -> by congruence.
  assert (w_queries w1 = w_queries w) as Hq1
    by (eapply (effect_queries (λ _, True)); [by apply effect_pool_get | done]).
  assert (∃ evs, (evs = [] ∨ evs = [EvFetchall c])
            ∧ Query.fetch (p_dbapi p) c statement (_params q) w1
              = (Raise e, add_log (evs ++ [EvExecute c statement (_params q);
                                            EvCursor c]) w1))
    as (evs & Hevs & Hfetch).
  { destruct Hfail as [Hexe | [Hexe Hfetchall]].
    - exists []. split; [by left |]. by apply fetch_execute_raises.
    - exists [EvFetchall c]. split; [by right |].
      by apply fetch_fetchall_raises. }
  eexists _, evs, p0, _.
  split; [by eapply execute_body_raises |]. simpl.
  split; [by rewrite <-app_assoc |]. split; [done |]. split; [done |].
  split; [done |]. split; [apply lookup_insert_eq |]. simpl.
  split; [by rewrite Hout, remove_conn_head |].
  split; [by rewrite Hclosing |].
  intros l' Hl'. by rewrite lookup_insert_ne.
Qed.

Lemma execute_driver_failure_witness :
  ∃ w' p', Query.execute 0 None None Chinook.broken_world
           = (Raise (DriverError 1), w')
    ∧ w_pools w' !! 0 = Some p' ∧ p_out p' = [].
Proof.
  edestruct execute_driver_failure
    with (self := 0%N) (limit := @None Z) (offset := @None Z) (l := 0)
         (w := Chinook.broken_world) (c := 0) (e := DriverError 1)
    as (w' & evs & p0 & p' & Hexec & _ & _ & _ & Hp0 & Hp' & Hout & _);
    [vm_compute; reflexivity .. | left; vm_compute; reflexivity |].
  exists w', p'. split; [exact Hexec |]. split; [exact Hp' |].
  rewrite Hout. vm_compute in Hp0. by injection Hp0 as <-.
Defined.


(** ** Row decoding (C4) *)

(** C4: for a query that was constructed, whatever the names of its select
    expressions, the record class has one field per name, in order: the
    name itself where it is an identifier, no keyword, without leading
    underscore and not the name of an earlier position, and the positional
    name [_i] otherwise; the fields are pairwise distinct.  When the pool
    hands out a connection and the block fetches rows of the width of the
    SELECT list, [execute] returns one record per row, in the order of the
    rows, each holding its row, and the field at position [i] of a record
    reads the value at position [i] of its row.  With ASCII names, be they
    duplicates, keywords or no identifiers at all, the construction does not
    fail. *)
Theorem query_row_decoding {I : Interpreter} (id : N) (spec : QuerySpec)
    (statement : string) (params : list pyval) :
  let names := map _get_name (select_exprs spec) in
  (∀ db, Forall (λ n, is_ascii n = true) names →
     ∃ q, Query.__init__ id spec statement params (Some db) = inr q)
  ∧ ∀ db q, Query.__init__ id spec statement params db = inr q →
      length (nt_fields (_return_type q)) = length names
      ∧ NoDup (nt_fields (_return_type q))
      ∧ (∀ i name, names !! i = Some name →
           nt_fields (_return_type q) !! i
           = Some (if keeps_name name && negb (bool_decide (name ∈ take i names))
                   then name else "_" +:+ pretty i))
      ∧ (∀ limit offset l c p w w1 w2 paged rows,
           w_queries w !! id = Some q →
           _db q !! "pool" = Some (APool l) →
           Query.paged_statement q limit offset = inr paged →
           Pool.get l w = (Ok c, w1) →
           w_pools w1 !! l = Some p →
           Query.fetch (p_dbapi p) c paged (_params q) w1 = (Ok rows, w2) →
           Forall (λ r, length r = length names) rows →
           ∃ w', Query.execute id limit offset w
                 = (Ok (map (λ r, {| nv_type := _return_type q; nv_values := r |})
                            rows), w'))
      ∧ (∀ r i f, nt_fields (_return_type q) !! i = Some f →
           getfield {| nv_type := _return_type q; nv_values := r |} f = r !! i).
Proof.
  intros names. split; [intros db; apply query_init_ascii |].
  intros db q (d & -> & Hq)%query_init_inv.
  assert (nt_fields (_return_type q) = rename_fields 0 ∅ names) as Hfields
    by by rewrite Hq.
  clear Hq. rewrite Hfields.
  assert (NoDup (rename_fields 0 ∅ names)) as Hnd.
  { eapply (check_fields_NoDup true ∅), check_fields_rename.
    by intros x ?%not_elem_of_empty. }
  split; [apply rename_fields_length |]. split; [done |].
  split; [| split].
  - intros i name Hi. rewrite (rename_fields_lookup 0 ∅ names i name Hi).
    rewrite (bool_decide_eq_false_2 (name ∈ ∅)) by apply not_elem_of_empty.
    by rewrite andb_true_r.
  - intros limit offset l c p w w1 w2 paged rows Hq Hl Hpaged Hget Hp Hfetch Hrows.
    eexists. eapply execute_decodes_rows; try done.
    by rewrite Hfields, rename_fields_length.
  - intros r i f Hi. unfold getfield. simpl. rewrite Hfields.
    by apply field_lookup_NoDup.
Qed.

Lemma query_row_decoding_witness :
  ∃ w', Query.execute 0 None None Chinook.pair_world
        = (Ok [{| nv_type := {| nt_typename := "QueryResult_0";
                                nt_fields := ["GenreId"; "_1"] |};
                  nv_values := [PyInt 1; PyInt 2] |}], w')
    ∧ getfield {| nv_type := {| nt_typename := "QueryResult_0";
                                nt_fields := ["GenreId"; "_1"] |};
                  nv_values := [PyInt 1; PyInt 2] |} "_1"
      = Some (PyInt 2).
Proof.
  destruct (query_row_decoding 0
              {| select_exprs := [Chinook.GenreId; Chinook.GenreId] |}
              "SELECT Track.GenreId, Track.GenreId FROM Track" [])
    as [_ Hq].
  destruct (Hq (Some Chinook.pair_database)
              {| _db := Chinook.pair_database;
                 _spec := {| select_exprs := [Chinook.GenreId; Chinook.GenreId] |};
                 _statement := "SELECT Track.GenreId, Track.GenreId FROM Track";
                 _params := [];
                 _columns :=
                   _QueryColumnCollection 0
                     {| select_exprs := [Chinook.GenreId; Chinook.GenreId] |};
                 _return_type := {| nt_typename := "QueryResult_0";
                                    nt_fields := ["GenreId"; "_1"] |} |})
    as (_ & _ & Hfield & Hexec & Hget); [vm_compute; reflexivity |].
  edestruct Hexec
    with (limit := @None Z) (offset := @None Z) (l := 0) (c := 0)
         (w := Chinook.pair_world) (rows := [[PyInt 1; PyInt 2]])
    as [w' Hw']; [vm_compute; reflexivity .. | |].
  - repeat constructor.
  - exists w'. split; [exact Hw' |].
    apply (Hget [PyInt 1; PyInt 2] 1 "_1"). reflexivity.
Defined.
(** ** The builder (C5) *)

Section builder_properties.
Context {E : Type} {HE : Expression E} {I : Interpreter}.

Lemma calls_having (cs : list (QueryBuilder.call (E:=E))) (b : QueryBuilder.t) :
  QueryBuilder.qb_having b ≠ [] ∨ (∃ e, QueryBuilder.having e ∈ cs) →
  QueryBuilder.qb_having (QueryBuilder.calls b cs) ≠ [].
Proof.
  revert b. induction cs as [|c cs IH]; intros b Hb.
  - destruct Hb as [Hb | [e He]]; [done | by apply elem_of_nil in He].
  - apply IH. destruct Hb as [Hb | [e He]].
    + left. destruct c; simpl; try done. by destruct (QueryBuilder.qb_having b).
    + apply elem_of_cons in He as [<- | He]; [| right; by exists e].
      left. simpl. by destruct (QueryBuilder.qb_having b).
Qed.

Lemma calls_group_by (cs : list (QueryBuilder.call (E:=E))) (b : QueryBuilder.t) :
  QueryBuilder.qb_group_by b = [] → (∀ e, QueryBuilder.group_by e ∉ cs) →
  QueryBuilder.qb_group_by (QueryBuilder.calls b cs) = [].
Proof.
  revert b. induction cs as [|c cs IH]; intros b Hb Hcs; [done |].
  apply IH.
  - destruct c; simpl; try done. exfalso. eapply Hcs. by left.
  - intros e He. eapply Hcs. by right.
Qed.

(** C5: a builder on which [having] was called and [group_by] was not:
    [get()] raises [QueryError], in the call itself, and the world is as it
    was, so that no query object has been created that could be executed. *)
Theorem having_without_group_by_raises (db : option database)
    (cs : list (QueryBuilder.call (E:=E))) (w : world) :
  (∃ e, QueryBuilder.having e ∈ cs) →
  (∀ e, QueryBuilder.group_by e ∉ cs) →
  ∃ msg, QueryBuilder.get (QueryBuilder.calls (QueryBuilder.__init__ db) cs) w
         = (Raise (QueryError msg), w).
Proof.
  intros Hhaving Hgroup.
  pose proof (calls_having cs (QueryBuilder.__init__ db) (or_intror Hhaving)) as Hh.
  pose proof (calls_group_by cs (QueryBuilder.__init__ db) eq_refl Hgroup) as Hg.
  unfold QueryBuilder.get, QueryBuilder.derive_from.
  set (b := QueryBuilder.calls _ cs) in *.
  destruct (QueryBuilder.qb_having b) as [|h hs]; [done |]. rewrite Hg.
  destruct (QueryBuilder.qb_from b) as [f|].
  - by exists "HAVING requires GROUP BY.".
  - destruct (remove_dups _) as [|f [|f' fs]]; by eexists.
Qed.

End builder_properties.

Lemma having_without_group_by_raises_witness :
  ∃ msg, QueryBuilder.get (HE := Chinook.expression)
           (QueryBuilder.calls (QueryBuilder.__init__ (Some ∅))
              Chinook.having_calls) Chinook.empty_world
         = (Raise (QueryError msg), Chinook.empty_world).
Proof.
  apply (having_without_group_by_raises (HE := Chinook.expression)).
  - eexists. unfold Chinook.having_calls.
    apply list_elem_of_further, list_elem_of_here.
  - intros e. unfold Chinook.having_calls.
    rewrite !elem_of_cons, elem_of_nil. intros [H | [H | []]]; discriminate H.
Defined.


(** ** Rebinding a parameter (C2) *)

(** C2: class [Query] defines no [set_param] and keeps its parameters as a
    list without names.  Unless a base class supplies the method, the call
    [q.set_param(name, value)] on a query object raises [AttributeError]
    whatever the name and the value are; nothing is rebound: the world, and
    in it the statement and the parameters of the query, are as before the
    call. *)
Theorem set_param_is_missing (inherited : list string) (self : N)
    (q : Query.t) (name : string) (value : pyval) (w : world) :
  w_queries w !! self = Some q →
  "set_param" ∉ inherited →
  Query.call_set_param inherited self name value w
  = (Raise (AttributeError "set_param"), w).
Proof.
  intros Hq Hbase. unfold Query.call_set_param, Query.getattribute.
  rewrite (bind_Ok _ _ w q w) by by apply read_query_Some.
  rewrite bool_decide_eq_false_2; [done |].
  rewrite !elem_of_app. intros [Hin | [Hin | Hin]]; [| | done].
  - revert Hin. unfold Query.instance_attributes.
    rewrite !elem_of_cons, elem_of_nil. intros H.
    repeat (destruct H as [H | H]; [discriminate H |]). done.
  - revert Hin. unfold Query.class_attributes.
    rewrite !elem_of_cons, elem_of_nil. intros H.
    repeat (destruct H as [H | H]; [discriminate H |]). done.
Qed.

Lemma set_param_is_missing_witness :
  Query.call_set_param [] 0 "genre_id" (PyInt 2) Chinook.genre_world
  = (Raise (AttributeError "set_param"), Chinook.genre_world).
Proof.
  eapply (set_param_is_missing [] 0).
  - vm_compute. reflexivity.
  - apply not_elem_of_nil.
Defined.
(** * Further properties of [query.py] *)

(** ** The paging suffix *)






(** ** The driver calls of one execution *)

(** The body of the [with] block asks the driver for a cursor, then to
    execute, then to fetch, then to close the cursor, and stops at the first
    call that raises: the log grows by a prefix of these four calls, never
    empty; the rows are returned only after all four; and the cursor is
    closed exactly when [fetchall] has returned, so a failing [execute] or
    [fetchall] leaves the cursor unclosed. *)
Theorem fetch_calls_in_order (d : dbapi) (c : conn) (statement : string)
    (params : list pyval) (w : world) :
  ∃ n, 1 ≤ n ≤ 4
    ∧ (Query.fetch d c statement params w).2
      = add_log (rev (take n (fetch_calls c statement params))) w
    ∧ (Query.fetch d c statement params w).1 ≠ Blocked
    ∧ (∀ rows, (Query.fetch d c statement params w).1 = Ok rows → n = 4)
    ∧ (n = 4 ↔
       cursor_raises d (w_log w) c = None
       ∧ execute_raises d (EvCursor c :: w_log w) c statement params = None
       ∧ ∃ rows, fetchall_returns d
                   (EvExecute c statement params :: EvCursor c :: w_log w) c
                 = inr rows).
Proof.
  unfold Query.fetch, conn_cursor, cur_execute, cur_fetchall, cur_close.
  unfold mbind, M_bind, get_log, emit, raise_if, lift_result. simpl.
  destruct (cursor_raises d (w_log w) c) as [e|] eqn:Hcur; simpl.
  { exists 1. repeat split; try done; try lia. by intros (? & _). }
  destruct (execute_raises d _ c statement params) as [e|] eqn:Hexe; simpl.
  { exists 2. repeat split; try done; try lia. by intros (_ & ? & _). }
  destruct (fetchall_returns d _ c) as [e|rows] eqn:Hfetch; simpl.
  { exists 3. repeat split; try done; try lia. by intros (_ & _ & ? & ?). }
  exists 4.
  destruct (close_raises d _ c) as [e|]; simpl;
    (repeat split; try done; try lia; by eexists).
Qed.

Lemma fetch_calls_in_order_witness :
  ∃ n, (Query.fetch (Chinook.broken_driver (DriverError 1)) 0 "SELECT 1" []
          Chinook.empty_world).2
       = add_log (rev (take n (fetch_calls 0 "SELECT 1" []))) Chinook.empty_world
    ∧ n ≠ 4.
Proof.
  destruct (fetch_calls_in_order (Chinook.broken_driver (DriverError 1)) 0
              "SELECT 1" [] Chinook.empty_world)
    as (n & _ & Hw & _ & _ & Hn).
  exists n. split; [exact Hw |].
  intros (_ & Hexe & _)%Hn. discriminate Hexe.
Defined.



(** When the driver answers every call of the block, [execute] returns one
    record per fetched row, in the order of the rows, each holding its row
    under the record class of the query; the driver was asked for a cursor,
    to execute the statement with the stored parameters, to fetch and to
    close, once each and in this order; and the connection is checked in
    again. *)
Theorem execute_returns_records (self : N) (q : Query.t)
    (limit offset : option Z) (l : loc) (w w1 : world) (c : conn)
    (p : pool_state) (statement : string) (rows : list row) :
  w_queries w !! self = Some q →
  _db q !! "pool" = Some (APool l) →
  Query.paged_statement q limit offset = inr statement →
  Pool.get l w = (Ok c, w1) →
  w_pools w1 !! l = Some p →
  cursor_raises (p_dbapi p) (w_log w1) c = None →
  execute_raises (p_dbapi p) (EvCursor c :: w_log w1) c statement (_params q)
    = None →
  fetchall_returns (p_dbapi p)
    (EvExecute c statement (_params q) :: EvCursor c :: w_log w1) c = inr rows →
  close_raises (p_dbapi p)
    (EvFetchall c :: EvExecute c statement (_params q) :: EvCursor c :: w_log w1)
    c = None →
  Forall (λ r, length r = length (nt_fields (_return_type q))) rows →
  ∃ w' p',
    Query.execute self limit offset w
    = (Ok (map (λ r, {| nv_type := _return_type q; nv_values := r |}) rows), w')
    ∧ w_log w' = rev (fetch_calls c statement (_params q)) ++ w_log w1
    ∧ w_queries w' = w_queries w
    ∧ w_pools w' !! l = Some p'
    ∧ p_out p' = Pool.remove_conn c (p_out p)
    ∧ p_idle p' = (if p_closing p then p_idle p else p_idle p ++ [c]).
Proof.
  intros Hq Hl Hstmt Hget Hp Hcur Hexe Hfetch Hclose Hrows.
  assert (Query.fetch (p_dbapi p) c statement (_params q) w1
          = (Ok rows, add_log (rev (fetch_calls c statement (_params q))) w1))
    as Hbody.
  { unfold Query.fetch, conn_cursor, cur_execute, cur_fetchall, cur_close.
    unfold mbind, M_bind, get_log, emit, raise_if, lift_result. simpl.
    rewrite Hcur. simpl. rewrite Hexe. simpl. rewrite Hfetch. simpl.
    by rewrite Hclose. }
  eexists _, _.
  split; [by eapply execute_decodes_rows |]. simpl.
  split; [done |]. split.
  { eapply (effect_queries (λ _, True)); [by apply effect_pool_get | done]. }
  split; [apply lookup_insert_eq |]. done.
Qed.

Lemma execute_returns_records_witness :
  ∃ w', Query.execute 0 None None Chinook.genre_world
        = (Ok [{| nv_type := {| nt_typename := "QueryResult_0";
                                nt_fields := ["GenreId"] |};
                  nv_values := [PyInt 1] |};
               {| nv_type := {| nt_typename := "QueryResult_0";
                                nt_fields := ["GenreId"] |};
                  nv_values := [PyInt 2] |}], w').
Proof.
  edestruct execute_returns_records
    with (self := 0%N) (limit := @None Z) (offset := @None Z) (l := 0)
         (w := Chinook.genre_world) (c := 0)
         (rows := [[PyInt 1]; [PyInt 2]])
    as (w' & p' & Hexec & _);
    [vm_compute; reflexivity .. | |].
  - repeat constructor.
  - exists w'. exact Hexec.
Defined.

(** The block returns rows only after all four driver calls. *)
Lemma fetch_Ok_world (d : dbapi) (c : conn) (statement : string)
    (params : list pyval) (w w2 : world) (rows : list row) :
  Query.fetch d c statement params w = (Ok rows, w2) →
  w2 = add_log (rev (fetch_calls c statement params)) w.
Proof.
  unfold Query.fetch, conn_cursor, cur_execute, cur_fetchall, cur_close.
  unfold mbind, M_bind, get_log, emit, raise_if, lift_result. simpl.
  destruct (cursor_raises d _ c); [done |]. simpl.
  destruct (execute_raises d _ c statement params); [done |]. simpl.
  destruct (fetchall_returns d _ c) as [e|rows']; [done |]. simpl.
  destruct (close_raises d _ c); [done |]. simpl.
  by intros [= _ <-].
Qed.

Lemma mapM_make_bad (cls : namedtuple_type) (rows : list row) :
  Exists (λ r, length r ≠ length (nt_fields cls)) rows →
  mapM (_make cls) rows
  = inl (TypeError "Expected a different number of arguments").
Proof.
  induction rows as [|r rows IH]; intros Hbad; [by apply Exists_nil in Hbad |].
  rewrite result_mapM_cons. unfold _make at 1.
  destruct (decide (length r = length (nt_fields cls))) as [Hr | Hr]; [| done].
  apply Exists_cons in Hbad as [Hbad | Hbad]; [done |].
  by rewrite IH.
Qed.

(** The rows are decoded after the [with] block: when a fetched row has not
    the width of the SELECT list, [execute] raises [TypeError] and returns no
    record at all, but by then the cursor is closed and the connection is
    checked in again. *)
Theorem execute_row_of_wrong_width (self : N) (q : Query.t)
    (limit offset : option Z) (l : loc) (w w1 w2 : world) (c : conn)
    (p : pool_state) (statement : string) (rows : list row) :
  w_queries w !! self = Some q →
  _db q !! "pool" = Some (APool l) →
  Query.paged_statement q limit offset = inr statement →
  Pool.get l w = (Ok c, w1) →
  w_pools w1 !! l = Some p →
  Query.fetch (p_dbapi p) c statement (_params q) w1 = (Ok rows, w2) →
  Exists (λ r, length r ≠ length (nt_fields (_return_type q))) rows →
  ∃ w' p',
    Query.execute self limit offset w
    = (Raise (TypeError "Expected a different number of arguments"), w')
    ∧ w_log w' = rev (fetch_calls c statement (_params q)) ++ w_log w1
    ∧ w_pools w' !! l = Some p'
    ∧ p_out p' = Pool.remove_conn c (p_out p).
Proof.
  intros Hq Hl Hstmt Hget Hp Hfetch Hbad.
  pose proof (fetch_pools _ _ _ _ _ _ _ Hfetch) as Hpools.
  pose proof (fetch_Ok_world _ _ _ _ _ _ _ Hfetch) as Hw2.
  eexists _, _. split.
  { rewrite (execute_unfold self q) by done. rewrite Hstmt.
    rewrite (bind_Ok _ _ w statement w) by done.
    rewrite (bind_Ok _ _ w l w) by by apply pool_of_Some.
    rewrite (bind_Ok _ _ w c w1) by done.
    rewrite (bind_Ok _ _ w1 p w1) by by apply read_pool_Some.
    erewrite bind_Ok.
    2:{ unfold with_exit. rewrite Hfetch.
        rewrite (pool_exit_eq l c None p w2) by by rewrite Hpools. done. }
    simpl. unfold Query._process_result. by rewrite mapM_make_bad. }
  simpl. split; [by rewrite Hw2 |].
  rewrite Hpools. split; [apply lookup_insert_eq | done].
Qed.


Lemma execute_row_of_wrong_width_witness :
  ∃ w', Query.execute 0 None None Chinook.two_column_world
        = (Raise (TypeError "Expected a different number of arguments"), w').
Proof.
  edestruct execute_row_of_wrong_width
    with (self := 0%N) (limit := @None Z) (offset := @None Z) (l := 0)
         (w := Chinook.two_column_world) (c := 0)
    as (w' & p' & Hexec & _);
    [vm_compute; reflexivity .. | |].
  - apply Exists_cons_hd. vm_compute. discriminate.
  - exists w'. exact Hexec.
Defined.

(** ** The record class of a query *)

Lemma NoDup_not_in_take (names : list string) (i : nat) (name : string) :
  NoDup names → names !! i = Some name → name ∉ take i names.
Proof.
  intros Hnd Hi Hin.
  apply list_elem_of_lookup in Hin as (j & Hj).
  pose proof (lookup_lt_Some _ _ _ Hj) as Hlt. rewrite length_take in Hlt.
  rewrite lookup_take_lt in Hj by lia.
  assert (i = j) by (eapply NoDup_lookup; eauto). lia.
Qed.

Lemma rename_fields_kept {I : Interpreter} (names : list string) :
  NoDup names → Forall (λ n, keeps_name n = true) names →
  rename_fields 0 ∅ names = names.
Proof.
  intros Hnd Hkeep. apply list_eq. intros i.
  destruct (names !! i) as [name|] eqn:Hi.
  - rewrite (rename_fields_lookup 0 ∅ names i name Hi).
    rewrite Forall_forall in Hkeep.
    rewrite (Hkeep name) by (by eapply list_elem_of_lookup_2).
    rewrite (bool_decide_eq_false_2 (name ∈ ∅)) by apply not_elem_of_empty.
    by rewrite (bool_decide_eq_false_2 (name ∈ take i names))
      by (by apply NoDup_not_in_take).
  - apply lookup_ge_None. rewrite rename_fields_length.
    by apply lookup_ge_None.
Qed.

(** When the names of the select expressions are pairwise distinct
    identifiers, none a keyword and none with a leading underscore, the
    fields of the records are exactly these names, in order: nothing is
    renamed. *)
Theorem record_fields_are_the_names {I : Interpreter} (id : N) (spec : QuerySpec)
    (statement : string) (params : list pyval) (db : option database)
    (q : Query.t) :
  Query.__init__ id spec statement params db = inr q →
  NoDup (map _get_name (select_exprs spec)) →
  Forall (λ n, keeps_name n = true) (map _get_name (select_exprs spec)) →
  nt_fields (_return_type q) = map _get_name (select_exprs spec).
Proof.
  intros (d & -> & ->)%query_init_inv.
  simpl. apply rename_fields_kept.
Qed.

Lemma record_fields_are_the_names_witness :
  ∃ q, Query.__init__ 7 {| select_exprs := [Chinook.GenreId] |}
         "SELECT Track.GenreId FROM Track" [] (Some ∅) = inr q
    ∧ nt_fields (_return_type q) = ["GenreId"].
Proof.
  eexists. split; [vm_compute; reflexivity |].
  eapply (record_fields_are_the_names 7 {| select_exprs := [Chinook.GenreId] |}
            "SELECT Track.GenreId FROM Track" [] (Some ∅)).
  - vm_compute; reflexivity.
  - repeat constructor. by intros ?%elem_of_nil.
  - repeat constructor.
Defined.

(** Reading a record by the name of a select expression: where that name is
    an identifier, no keyword, without leading underscore, the attribute of
    that name holds the value of the first column so named, also when later
    columns repeat the name. *)
Theorem record_attribute_by_name {I : Interpreter} (id : N) (spec : QuerySpec)
    (statement : string) (params : list pyval) (db : option database)
    (q : Query.t) (r : row) (i : nat) (name : string) :
  Query.__init__ id spec statement params db = inr q →
  map _get_name (select_exprs spec) !! i = Some name →
  keeps_name name = true →
  name ∉ take i (map _get_name (select_exprs spec)) →
  getfield {| nv_type := _return_type q; nv_values := r |} name = r !! i.
Proof.
  intros (d & -> & ->)%query_init_inv.
  intros Hi Hkeep Hfirst. unfold getfield. simpl.
  apply field_lookup_NoDup.
  - eapply (check_fields_NoDup true ∅), check_fields_rename.
    by intros x ?%not_elem_of_empty.
  - rewrite (rename_fields_lookup 0 ∅ _ i name Hi), Hkeep.
    rewrite (bool_decide_eq_false_2 (name ∈ ∅)) by apply not_elem_of_empty.
    by rewrite (bool_decide_eq_false_2 _ Hfirst).
Qed.

Lemma record_attribute_by_name_witness :
  ∃ q, Query.__init__ 7 {| select_exprs := [Chinook.GenreId; Chinook.GenreId] |}
         "SELECT Track.GenreId, Track.GenreId FROM Track" [] (Some ∅) = inr q
    ∧ getfield {| nv_type := _return_type q; nv_values := [PyInt 1; PyInt 2] |}
        "GenreId" = Some (PyInt 1).
Proof.
  eexists. split; [vm_compute; reflexivity |].
  eapply (record_attribute_by_name 7
            {| select_exprs := [Chinook.GenreId; Chinook.GenreId] |}
            "SELECT Track.GenreId, Track.GenreId FROM Track" [] (Some ∅)
            _ [PyInt 1; PyInt 2] 0 "GenreId").
  - vm_compute; reflexivity.
  - reflexivity.
  - vm_compute; reflexivity.
  - by intros ?%elem_of_nil.
Defined.

(** The record class of a query is well formed whatever the select
    expressions are called: its name and every field are identifiers and no
    keywords, and the class names of two queries differ as soon as the
    queries are not the same object. *)
Theorem record_class_well_formed {I : Interpreter} (id id' : N) (spec spec' : QuerySpec)
    (statement statement' : string) (params params' : list pyval)
    (db db' : option database) (q q' : Query.t) :
  Query.__init__ id spec statement params db = inr q →
  Query.__init__ id' spec' statement' params' db' = inr q' →
  isidentifier (nt_typename (_return_type q)) = true
  ∧ iskeyword (nt_typename (_return_type q)) = false
  ∧ Forall (λ f, isidentifier f = true ∧ iskeyword f = false)
           (nt_fields (_return_type q))
  ∧ (nt_typename (_return_type q) = nt_typename (_return_type q') → id = id').
Proof.
  intros (d & -> & ->)%query_init_inv (d' & -> & ->)%query_init_inv. simpl.
  split; [apply typename_identifier |]. split; [apply typename_not_keyword |].
  split; [apply rename_fields_valid |].
  intros Heq. apply (inj (String.app "QueryResult_")) in Heq.
  by apply (inj pretty) in Heq.
Qed.

Lemma record_class_well_formed_witness :
  ∃ q, Query.__init__ 7 {| select_exprs := [Chinook.GenreId] |}
         "SELECT Track.GenreId FROM Track" [] (Some ∅) = inr q
    ∧ isidentifier (nt_typename (_return_type q)) = true.
Proof.
  eexists. split; [vm_compute; reflexivity |].
  eapply (record_class_well_formed 7 7 {| select_exprs := [Chinook.GenreId] |}
            {| select_exprs := [Chinook.GenreId] |}
            "SELECT Track.GenreId FROM Track" "SELECT Track.GenreId FROM Track"
            [] [] (Some ∅) (Some ∅));
    vm_compute; reflexivity.
Defined.

(** ** The columns of a query *)

(** The columns a query offers to an outer query belong to the query: there
    is one selectable per select expression, each is a [_QueryColumn] of
    this very query around one of its select expressions (so the only table
    it refers to is the query), and [getColumn] with the name of a select
    expression finds such a column of that name. *)
Theorem selectables_belong_to_query {I : Interpreter} (id : N) (spec : QuerySpec)
    (statement : string) (params : list pyval) (db : option database)
    (q : Query.t) :
  Query.__init__ id spec statement params db = inr q →
  ∃ selectables,
    Query._get_selectables q = inr selectables
    ∧ length selectables = length (select_exprs spec)
    ∧ Forall (λ s, ∃ e, e ∈ select_exprs spec ∧ s = QueryColumn e id)
             selectables
    ∧ ∀ e, e ∈ select_exprs spec →
        ∃ e', Query.getColumn q (_get_name e) = inr (QueryColumn e' id)
              ∧ e' ∈ select_exprs spec ∧ _get_name e' = _get_name e.
Proof.
  intros (d & -> & ->)%query_init_inv.
  unfold Query._get_selectables, Query.getColumn. simpl _columns.
  rewrite getNames_QueryColumnCollection.
  set (cols := map (λ e, QueryColumn e id) (select_exprs spec)).
  destruct (mapM_getitem cols cols) as (sels & Hsels & Hnames & Hin); [done |].
  assert (map _get_name cols = map _get_name (select_exprs spec)) as Hcols
    by apply getNames_QueryColumnCollection.
  rewrite Hcols in Hsels, Hnames.
  exists sels. split; [exact Hsels |]. split.
  { by rewrite <-(length_map _get_name sels), Hnames, length_map. }
  split.
  - apply Forall_forall. intros s Hs%Hin.
    apply list_elem_of_fmap in Hs as (e & -> & He). by exists e.
  - intros e He.
    destruct (getitem_found cols (QueryColumn e id)) as (c' & Hc' & Hc'in & Hname).
    { apply list_elem_of_fmap. by exists e. }
    apply list_elem_of_fmap in Hc'in as (e' & -> & He').
    exists e'. split; [exact Hc' | done].
Qed.

Lemma selectables_belong_to_query_witness :
  ∃ q e', Query.__init__ 7 {| select_exprs := [Chinook.GenreId] |}
            "SELECT Track.GenreId FROM Track" [] (Some ∅) = inr q
    ∧ Query.getColumn q "GenreId" = inr (QueryColumn e' 7).
Proof.
  eexists.
  edestruct (selectables_belong_to_query 7
               {| select_exprs := [Chinook.GenreId] |}
               "SELECT Track.GenreId FROM Track" [] (Some ∅))
    as (sels & _ & _ & _ & Hcol); [vm_compute; reflexivity |].
  destruct (Hcol Chinook.GenreId) as (e' & He' & _); [by left |].
  exists e'. split; [vm_compute; reflexivity | exact He'].
Defined.
(** * Further properties of [database.py] *)

(** A database that was constructed holds what it was constructed with: the
    dsn and the module given, the marker of the module's style and a pool,
    under the attributes [_dsn], [_dbapi], [_param_marker] and [pool], and it
    has no attribute besides these four; so [self._db.pool] in
    [Query.execute] always finds the pool. *)
Theorem database_attributes (connect_args : option (list pyval))
    (connect_kwargs : option kwargs) (dbapi_module : option dbapi)
    (dsn : option string) (minconn maxconn : nat) (w w' : world)
    (self : database) :
  Database.__init__ connect_args connect_kwargs dbapi_module dsn
    minconn maxconn w = (Ok self, w') →
  ∃ d marker l,
    dbapi_module = Some d
    ∧ _get_param_marker d = inr marker
    ∧ self !! "_dsn" = Some (ADsn dsn)
    ∧ self !! "_dbapi" = Some (ADbapi (Some d))
    ∧ self !! "_param_marker" = Some (AStr marker)
    ∧ self !! "pool" = Some (APool l)
    ∧ dom self = {[ "_dsn"; "_dbapi"; "_param_marker"; "pool" ]}
    ∧ ∀ w'', Query.pool_of self w'' = (Ok l, w'').
Proof.
  destruct dbapi_module as [d|]; [| done].
  rewrite database_init_Some.
  destruct (_get_param_marker d) as [e|marker] eqn:Hmarker; [done |].
  destruct (Pool.__init__ _ _ _ _ _ w) as [[l| |] w1]; intros; simplify_eq.
  exists d, marker, l. split; [done |]. split; [done |].
  split; [by rewrite !lookup_insert_ne, lookup_insert_eq by done |].
  split; [by rewrite !lookup_insert_ne, lookup_insert_eq by done |].
  split; [by rewrite lookup_insert_ne, lookup_insert_eq by done |].
  split; [by rewrite lookup_insert_eq |].
  split; [rewrite !dom_insert_L, dom_empty_L; set_solver |].
  intros w''. apply pool_of_Some. by rewrite lookup_insert_eq.
Qed.

Lemma database_attributes_witness :
  ∃ l, Query.pool_of Chinook.the_database Chinook.database_world
       = (Ok l, Chinook.database_world).
Proof.
  destruct (database_attributes None None (Some (Chinook.driver "qmark"))
              (Some "chinook.db") 1 2 Chinook.empty_world
              Chinook.database_world Chinook.the_database)
    as (d & marker & l & _ & _ & _ & _ & _ & _ & _ & Hpool);
    [vm_compute; reflexivity |].
  exists l. apply Hpool.
Defined.
